(** * gopushpixels: a verification development

    A shallow embedding of the PixelPusher protocol core of
    github.com/danjacques/gopushpixels (byte-slice reader, pixel buffer,
    discovery and command codecs, packet reader, packet stream assembler,
    device registry and router target selection), followed by the theorems
    that settle the properties of its specification.

    Conventions.
    - A Go [byte]/[uint8] is a [Byte.byte]; a [[]byte] and a Go [string] are
      [list byte].
    - A Go [int] is a [Z]; where the source multiplies it the 64-bit
      wrap-around is written out with [wrap64].  Unsigned fields of [n] bits
      are [Z] reduced with [Z.modulo].
    - A Go function that returns [(v, error)] and may panic returns a [res]:
      [Ok v], [Err e] or [Panic]; a loop is run on fuel and [OutOfFuel] says
      that the fuel did not reach the loop's exit.  Where Go returns a
      meaningful value together with an error (a short read with [io.EOF])
      the value is a tuple holding an [option error].
    - Mutable receivers are passed in and returned explicitly. *)

From Stdlib Require Import ZArith List Lia Bool.
From Stdlib.Strings Require Import Byte.
From stdpp Require Import base list gmap sets strings.
Import ListNotations.

Open Scope Z_scope.

(** ** Go runtime: errors, results, integers, bytes *)

(** The error values the modelled code creates or compares against.
    [Wrapped] is [errors.Wrap]/[errors.Wrapf] of github.com/pkg/errors: the
    wrapped error is no longer [==] to its cause. *)
Inductive error : Type :=
| EOF                                   (* io.EOF *)
| ErrUnexpectedEOF                      (* io.ErrUnexpectedEOF *)
| ErrSeekBounds                         (* "seek outside of bounds" *)
| ErrStripIndex (strip max : Z)         (* "strip index %d exceeds maximum (%d)" *)
| ErrBadMagic (got : list byte)         (* "command did not begin with magic" *)
| ErrUnknownCommand (b : byte)          (* "unknown command byte 0x%02x" *)
| ErrPacketSize (size mds : Z)          (* "packet size %d exceeds maximum %d" *)
| ErrStripDataTooLarge                  (* errStripDataTooLarge *)
| ErrNoRoute                            (* device.ErrNoRoute *)
| ErrSender (code : Z)                  (* an error of the DatagramSender *)
| Wrapped (context : string) (cause : error).

Inductive res (A : Type) : Type :=
| Ok (a : A)
| Err (e : error)
| Panic
| OutOfFuel.
Arguments Ok {A} a.
Arguments Err {A} e.
Arguments Panic {A}.
Arguments OutOfFuel {A}.

Definition bind {A B} (m : res A) (k : A -> res B) : res B :=
  match m with
  | Ok a => k a
  | Err e => Err e
  | Panic => Panic
  | OutOfFuel => OutOfFuel
  end.

Notation "'do' x <- m ; k" := (bind m (fun x => k))
  (at level 10, x pattern, m at level 100, k at level 200).

(** Go's [int] and [int64] on a 64-bit platform: two's complement wrap. *)
Definition wrap64 (z : Z) : Z := (z + 2 ^ 63) mod 2 ^ 64 - 2 ^ 63.
Definition maxInt : Z := 2 ^ 63 - 1.

Definition len {A} (l : list A) : Z := Z.of_nat (length l).

Definition byte_to_Z (b : byte) : Z := Z.of_N (Byte.to_N b).
Definition byte_of_Z (z : Z) : byte :=
  match Byte.of_N (Z.to_N (z mod 256)) with
  | Some b => b
  | None => x00
  end.

#[export] Instance byte_eq_dec : EqDecision byte := Byte.byte_eq_dec.

(** [bytes.Equal]. *)
Definition bytes_Equal (a b : list byte) : bool := bool_decide (a = b).

(** [s[i]]: an index outside [0 <= i < len(s)] panics. *)
Definition index (s : list byte) (i : Z) : res byte :=
  if (i <? 0) || (len s <=? i) then Panic
  else match s !! Z.to_nat i with
       | Some b => Ok b
       | None => Panic
       end.

(** [s[i] = b]. *)
Definition store (s : list byte) (i : Z) (b : byte) : res (list byte) :=
  if (i <? 0) || (len s <=? i) then Panic
  else Ok (<[Z.to_nat i := b]> s).

(** [s[:n]] for a slice whose capacity is its length. *)
Definition slice_to (s : list byte) (n : Z) : res (list byte) :=
  if (n <? 0) || (len s <? n) then Panic else Ok (take (Z.to_nat n) s).

(** [append([]byte(nil), v...)]. *)
Definition copy_bytes (v : list byte) : list byte := [] ++ v.

Definition zeros (n : Z) : list byte := repeat x00 (Z.to_nat n).

(** Little- and big-endian fixed-width integers (encoding/binary, struc):
    the byte of weight 256^k is the k-th digit of the value in base 256. *)
Fixpoint le_decode (bs : list byte) : Z :=
  match bs with
  | [] => 0
  | b :: bs' => byte_to_Z b + 256 * le_decode bs'
  end.

Fixpoint le_encode (n : nat) (z : Z) : list byte :=
  match n with
  | O => []
  | S n' => byte_of_Z z :: le_encode n' (z / 256)
  end.

Definition be_decode (bs : list byte) : Z := le_decode (rev bs).
Definition be_encode (n : nat) (z : Z) : list byte := rev (le_encode n z).

(** Conversion of an [n]-bit pattern to and from Go's signed [intN]. *)
Definition to_signed (bits : Z) (u : Z) : Z :=
  if u <? 2 ^ (bits - 1) then u else u - 2 ^ bits.
Definition of_signed (bits : Z) (s : Z) : Z := s mod 2 ^ bits.

(** ** support/byteslicereader *)
Module byteslicereader.

(** [pos] is unexported and starts at zero.  The methods used by the
    protocol code keep it within [0 <= pos]; the definitions below are the
    source's on those states ([valid]), where [Buffer[pos:]] and
    [Buffer[pos]] cannot panic. *)
Record R : Type := mkR {
  Buffer : list byte;
  AlwaysCopy : bool;
  pos : Z
}.

Definition NewR (data : list byte) : R :=
  {| Buffer := data; AlwaysCopy := false; pos := 0 |}.

Definition set_pos (r : R) (p : Z) : R :=
  {| Buffer := Buffer r; AlwaysCopy := AlwaysCopy r; pos := p |}.

Definition valid (r : R) : Prop := 0 <= pos r.

Definition remainingSlice (r : R) : list byte :=
  if len (Buffer r) <=? pos r then [] else drop (Z.to_nat (pos r)) (Buffer r).

Definition Remaining (r : R) : Z := len (remainingSlice r).

(** [Read(b)] with [len(b) = n]: the bytes copied into [b], the error and
    the advanced reader. *)
Definition Read (r : R) (n : Z) : list byte * option error * R :=
  let remaining := remainingSlice r in
  let copied := take (Z.to_nat n) remaining in
  let pos' := pos r + len copied in
  (copied, if len (Buffer r) <=? pos' then Some EOF else None, set_pos r pos').

Definition ReadByte (r : R) : byte * option error * R :=
  if len (Buffer r) <=? pos r then (x00, Some EOF, r)
  else (nth (Z.to_nat (pos r)) (Buffer r) x00, None, set_pos r (pos r + 1)).

Inductive whence : Type := SeekStart | SeekCurrent | SeekEnd.

Definition Seek (r : R) (offset : Z) (w : whence) : res R :=
  let bounded (newPos : Z) :=
    if (newPos <? 0) || (len (Buffer r) <=? newPos) then Err ErrSeekBounds
    else Ok (set_pos r newPos) in
  match w with
  | SeekStart => bounded offset
  | SeekEnd =>
      let newPos := wrap64 (wrap64 (offset + len (Buffer r)) - 1) in
      if 0 <? offset then
        if len (Buffer r) =? 0 then Ok (set_pos r offset) else Ok (set_pos r newPos)
      else bounded newPos
  | SeekCurrent => bounded (wrap64 (pos r + offset))
  end.

Definition Peek (r : R) (n : Z) : res (list byte) :=
  let v := remainingSlice r in
  do v <- (if n <? len v then slice_to v n else Ok v);
  Ok (if AlwaysCopy r then copy_bytes v else v).

Definition PeekByte (r : R) : res byte :=
  match remainingSlice r with
  | b :: _ => Ok b
  | [] => Err EOF
  end.

(** [Next(n)]: the slice returned, the error returned with it, and the
    advanced reader.  A negative [n] panics in [v[:n]]. *)
Definition Next (r : R) (n : Z) : res (list byte * option error * R) :=
  let v := remainingSlice r in
  do ve <- (if n <? len v
            then do v' <- slice_to v n; Ok (v', None)
            else Ok (v, Some EOF));
  let '(v, err) := ve in
  let v := if AlwaysCopy r then copy_bytes v else v in
  Ok (v, err, set_pos r (pos r + len v)).

End byteslicereader.

(** ** pixel *)
Module pixel.

(** pixel.go: the linear expansion table. *)
Definition pixelLinearExp_table : list Z :=
  [ 0; 0; 0; 0; 0; 0; 0; 0; 0; 0; 0; 0; 0; 0; 0; 0; 0; 0; 0; 1; 1; 1; 1; 1; 1; 1; 1; 1; 1; 1; 1; 1; 1; 1;
    1; 1; 1; 1; 1; 1; 1; 1; 1; 2; 2; 2; 2; 2; 2; 2; 2; 2; 2; 2; 2; 2; 2; 2; 3; 3; 3; 3; 3; 3; 3; 3; 3; 3; 3; 3; 4; 4; 4; 4; 4; 4; 4; 4; 4;
    5; 5; 5; 5; 5; 5; 5; 5; 6; 6; 6; 6; 6; 6; 7; 7; 7; 7; 7; 7; 8; 8; 8; 8; 8; 9; 9; 9; 9; 9; 10; 10; 10; 10; 11; 11; 11; 11; 12; 12; 12;
    13; 13; 13; 14; 14; 14; 14; 15; 15; 16; 16; 16; 17; 17; 17; 18; 18; 19; 19; 20; 20; 20; 21; 21; 22; 22; 23; 23; 24; 25; 25; 26; 26; 27;
    27; 28; 29; 29; 30; 31; 31; 32; 33; 34; 34; 35; 36; 37; 38; 38; 39; 40; 41; 42; 43; 44; 45; 46; 47; 48; 49; 50; 51; 52; 54; 55; 56; 57;
    59; 60; 61; 63; 64; 65; 67; 68; 70; 72; 73; 75; 76; 78; 80; 82; 83; 85; 87; 89; 91; 93; 95; 97; 99; 102; 104; 106; 109; 111; 114; 116;
    119; 121; 124; 127; 129; 132; 135; 138; 141; 144; 148; 151; 154; 158;
    161; 165; 168; 172; 176; 180; 184; 188; 192; 196; 201; 205;
    209; 214; 219; 224; 229; 234; 239; 244; 249; 255 ].

(** [pixelLinearExp[b]] for a byte index [b] of the [[256]byte] array. *)
Definition pixelLinearExp (b : byte) : byte :=
  byte_of_Z (nth (Z.to_nat (byte_to_Z b)) pixelLinearExp_table 0).

Record P : Type := mkP {
  Red : byte; Green : byte; Blue : byte; Orange : byte; White : byte
}.

Definition zeroP : P := mkP x00 x00 x00 x00 x00.

Definition P_AntiLog (p : P) : P :=
  mkP (pixelLinearExp (Red p)) (pixelLinearExp (Green p)) (pixelLinearExp (Blue p))
      (pixelLinearExp (Orange p)) (pixelLinearExp (White p)).

(** [BufferLayout] is an [int] with two declared values; [pixelSize]
    panics on any other, so only the declared ones are represented. *)
Inductive BufferLayout : Type := BufferRGB | BufferRGBOW.

Record Buffer : Type := mkBuffer {
  Layout : BufferLayout;
  buf : list byte
}.

Definition pixelSize (pb : Buffer) : Z :=
  match Layout pb with
  | BufferRGB => 3
  | BufferRGBOW => 9
  end.

Definition Len (pb : Buffer) : Z := Z.quot (len (buf pb)) (pixelSize pb).

Definition UseBytes (pb : Buffer) (b : list byte) : Buffer :=
  {| Layout := Layout pb; buf := b |}.

Definition Bytes (pb : Buffer) : list byte := buf pb.

(** [resetBuffer]: both branches leave [bytesNeeded] zero bytes ([make]
    zeroes, and the reuse branch zeroes whatever [zero] says); a negative
    [bytesNeeded] panics in [make] or in the reslice. *)
Definition resetBuffer (pb : Buffer) (size : Z) (zero : bool) : res Buffer :=
  let bytesNeeded := wrap64 (size * pixelSize pb) in
  if bytesNeeded <? 0 then Panic
  else Ok {| Layout := Layout pb; buf := zeros bytesNeeded |}.

Definition Reset (pb : Buffer) (size : Z) : res Buffer := resetBuffer pb size true.

Definition ReadFrom (pb : Buffer) (r : byteslicereader.R) (size : Z)
  : res (Buffer * byteslicereader.R) :=
  let pixelBufSize := wrap64 (size * pixelSize pb) in
  do ber <- byteslicereader.Next r pixelBufSize;
  let '(b, err, r') := ber in
  let err := match err with
             | Some EOF => if len b =? pixelBufSize then None else err
             | _ => err
             end in
  match err with
  | Some e => Err (Wrapped "could not read pixel buffer" e)
  | None => Ok ({| Layout := Layout pb; buf := b |}, r')
  end.

Definition CloneFromWithLen (pb other : Buffer) (count : Z) : res Buffer :=
  let pb := {| Layout := Layout other; buf := buf pb |} in
  do pb <- resetBuffer pb count false;
  let copySize := if len (buf other) <? len (buf pb) then len (buf other) else len (buf pb) in
  do src <- slice_to (buf other) copySize;
  let zeroStart := len src in
  Ok {| Layout := Layout pb;
        buf := src ++ zeros (len (buf pb) - zeroStart) |}.

Definition CloneFrom (pb other : Buffer) : res Buffer :=
  CloneFromWithLen pb other (Len other).

Definition Pixel (pb : Buffer) (i : Z) : res P :=
  let offset := wrap64 (i * pixelSize pb) in
  if (offset <? 0) || (len (buf pb) <=? offset) then Ok zeroP
  else
    do r <- index (buf pb) offset;
    do g <- index (buf pb) (offset + 1);
    do b <- index (buf pb) (offset + 2);
    match Layout pb with
    | BufferRGBOW =>
        do o <- index (buf pb) (offset + 3);
        do w <- index (buf pb) (offset + 6);
        Ok (mkP r g b o w)
    | BufferRGB => Ok (mkP r g b x00 x00)
    end.

(** A panic aborts the caller; the bytes a partly executed tuple assignment
    may already have written are not part of the result. *)
Definition SetPixel (pb : Buffer) (i : Z) (p : P) : res Buffer :=
  let offset := wrap64 (i * pixelSize pb) in
  if (offset <? 0) || (len (buf pb) <=? offset) then Ok pb
  else
    do b0 <- store (buf pb) offset (Red p);
    do b0 <- store b0 (offset + 1) (Green p);
    do b0 <- store b0 (offset + 2) (Blue p);
    match Layout pb with
    | BufferRGBOW =>
        do b0 <- store b0 (offset + 3) (Orange p);
        do b0 <- store b0 (offset + 4) (Orange p);
        do b0 <- store b0 (offset + 5) (Orange p);
        do b0 <- store b0 (offset + 6) (White p);
        do b0 <- store b0 (offset + 7) (White p);
        do b0 <- store b0 (offset + 8) (White p);
        Ok {| Layout := Layout pb; buf := b0 |}
    | BufferRGB => Ok {| Layout := Layout pb; buf := b0 |}
    end.

(** The loop of [AntiLog], one iteration per unit of [fuel]: [i] and
    [pixelIndex] are the loop variables, the result is the byte slice. *)
Fixpoint AntiLog_loop (fuel : nat) (layout : BufferLayout)
         (i pixelIndex : Z) (b : list byte) : res (list byte) :=
  match fuel with
  | O => if i <? len b then OutOfFuel else Ok b
  | S fuel' =>
      if i <? len b then
        do x <- index b i;
        do b <- store b i (pixelLinearExp x);
        let '(i, pixelIndex) :=
          match layout with
          | BufferRGB =>
              (i, if 2 <? pixelIndex then 0 else pixelIndex)
          | BufferRGBOW =>
              let '(i, pixelIndex) :=
                if 3 <? pixelIndex then (i + 2, pixelIndex + 1) else (i, pixelIndex) in
              (i, if 4 <? pixelIndex then 0 else pixelIndex)
          end in
        AntiLog_loop fuel' layout (i + 1) pixelIndex b
      else Ok b
  end.

(** [i] grows by at least one per iteration, so [len(buf)] iterations
    reach the loop's exit. *)
Definition AntiLog (pb : Buffer) : res Buffer :=
  do b <- AntiLog_loop (length (buf pb)) (Layout pb) 0 0 (buf pb);
  Ok {| Layout := Layout pb; buf := b |}.

(** The specification's wording of [antilog]: the luminance table applied
    to each wire byte, whatever the layout. *)
Definition antilog_spec (pb : Buffer) : Buffer :=
  {| Layout := Layout pb; buf := map pixelLinearExp (buf pb) |}.

End pixel.

(** ** io, bytes, io/ioutil: the standard library as the code uses it *)
Module io.

(** [io.Reader] together with [io.ByteReader]; both readers the code passes
    ([*bytes.Reader] and [*byteslicereader.R]) implement the two, so
    [dataio.MakeReader] returns its argument.  [unread] is no method: it is
    the view of the bytes still to be delivered, used to size the fuel of
    the reading loops. *)
Class Reader (T : Type) : Type := {
  Read : T -> Z -> list byte * option error * T;
  ReadByte : T -> byte * option error * T;
  unread : T -> list byte
}.

Definition is_EOF (e : error) : bool :=
  match e with EOF => true | _ => false end.

Definition is_nil (e : option error) : bool :=
  match e with None => true | Some _ => false end.

(** [ReadAtLeast]'s loop: [for n < min && err == nil]. *)
Fixpoint ReadAtLeast_loop {T} `{Reader T} (fuel : nat) (r : T) (min : Z)
         (got : list byte) (err : option error) : res (list byte * option error * T) :=
  if (len got <? min) && is_nil err then
    match fuel with
    | O => OutOfFuel
    | S fuel' =>
        let '(bs, err', r') := Read r (min - len got) in
        ReadAtLeast_loop fuel' r' min (got ++ bs) err'
    end
  else Ok (got, err, r).

(** [io.ReadFull(r, buf)] with [len(buf) = n]. *)
Definition ReadFull {T} `{Reader T} (r : T) (n : Z) : res (list byte * option error * T) :=
  do x <- ReadAtLeast_loop (S (Z.to_nat n)) r n [] None;
  let '(got, err, r') := x in
  let err :=
    if n <=? len got then None
    else match err with
         | Some EOF => if 0 <? len got then Some ErrUnexpectedEOF else err
         | _ => err
         end in
  Ok (got, err, r').

(** [ioutil.ReadAll]'s loop: read into the free space of the buffer (at
    least [MinRead = 512] bytes) until an error; [io.EOF] is a success. *)
Fixpoint ReadAll_loop {T} `{Reader T} (fuel : nat) (r : T) (got : list byte)
  : res (list byte * option error * T) :=
  match fuel with
  | O => OutOfFuel
  | S fuel' =>
      let '(bs, err, r') := Read r 512 in
      match err with
      | Some e => Ok (got ++ bs, if is_EOF e then None else Some e, r')
      | None => ReadAll_loop fuel' r' (got ++ bs)
      end
  end.

Definition ReadAll {T} `{Reader T} (r : T) : res (list byte * option error * T) :=
  ReadAll_loop (S (S (length (unread r)))) r [].

End io.

Module bytes.

(** [bytes.Reader]: the slice [s] and the read index [i]. *)
Record Reader : Type := mkReader { s : list byte; i : Z }.

Definition NewReader (b : list byte) : Reader := {| s := b; i := 0 |}.

Definition valid (r : Reader) : Prop := 0 <= i r.

Definition Read (r : Reader) (n : Z) : list byte * option error * Reader :=
  if len (s r) <=? i r then ([], Some EOF, r)
  else
    let copied := take (Z.to_nat n) (drop (Z.to_nat (i r)) (s r)) in
    (copied, None, {| s := s r; i := i r + len copied |}).

Definition ReadByte (r : Reader) : byte * option error * Reader :=
  if len (s r) <=? i r then (x00, Some EOF, r)
  else (nth (Z.to_nat (i r)) (s r) x00, None, {| s := s r; i := i r + 1 |}).

Definition unread (r : Reader) : list byte :=
  if len (s r) <=? i r then [] else drop (Z.to_nat (i r)) (s r).

End bytes.

#[export] Instance bytes_Reader : io.Reader bytes.Reader :=
  {| io.Read := bytes.Read; io.ReadByte := bytes.ReadByte; io.unread := bytes.unread |}.

#[export] Instance byteslicereader_Reader : io.Reader byteslicereader.R :=
  {| io.Read := byteslicereader.Read;
     io.ReadByte := byteslicereader.ReadByte;
     io.unread := byteslicereader.remainingSlice |}.

(** ** support/dataio *)
Module dataio.

(** [ReadFull]'s loop: [remaining] is the length of the part of [buf] still
    to fill, [got] the bytes read into it. *)
Fixpoint ReadFull_loop {T} `{io.Reader T} (fuel : nat) (r : T) (remaining : Z)
         (got : list byte) : res (list byte * option error * T) :=
  if 0 <? remaining then
    match fuel with
    | O => OutOfFuel
    | S fuel' =>
        let '(bs, err, r') := io.Read r remaining in
        let remaining := remaining - len bs in
        match err with
        | Some e =>
            if io.is_EOF e && (remaining =? 0) then Ok (got ++ bs, None, r')
            else Ok (got ++ bs, Some e, r')
        | None => ReadFull_loop fuel' r' remaining (got ++ bs)
        end
    end
  else Ok (got, None, r).

Definition ReadFull {T} `{io.Reader T} (r : T) (n : Z) : res (list byte * option error * T) :=
  ReadFull_loop (S (Z.to_nat n)) r n [].

End dataio.

(** ** github.com/lunixbochs/struc, as far as the code uses it

    [Unpack] reads the struct's fields in declaration order, one
    [io.ReadFull] of the field's size each, and returns the first error as
    it is; a [pad] field consumes its bytes and sets nothing.  [Pack] lays
    the fields out in one buffer ([pad] as zero bytes) and writes it. *)
Module struc.

Fixpoint Unpack {T} `{io.Reader T} (r : T) (sizes : list Z)
  : res (list (list byte) * option error * T) :=
  match sizes with
  | [] => Ok ([], None, r)
  | size :: sizes' =>
      do x <- io.ReadFull r size;
      let '(bs, err, r') := x in
      match err with
      | Some e => Ok ([], Some e, r')
      | None =>
          do y <- Unpack r' sizes';
          let '(fs, err, r'') := y in
          Ok (bs :: fs, err, r'')
      end
  end.

Definition field (fs : list (list byte)) (k : nat) : list byte := nth k fs [].

End struc.

(** ** protocol/pixelpusher *)
Module pixelpusher.

(** *** strip.go *)

(** [StripFlags] is a [uint8]; [SFlagRGBOW] is bit 0. *)
Definition StripFlags : Type := byte.
Definition SFlagRGBOW : Z := 1.

Definition getFlag (sf : StripFlags) (flag : Z) : bool :=
  negb (Z.land (byte_to_Z sf) flag =? 0).

Definition IsRGBOW (sf : StripFlags) : bool := getFlag sf SFlagRGBOW.

Definition PixelBufferLayout (sf : StripFlags) : pixel.BufferLayout :=
  if IsRGBOW sf then pixel.BufferRGBOW else pixel.BufferRGB.

Record StripState : Type := mkStripState {
  StripNumber : byte;
  Pixels : pixel.Buffer
}.

(** *** commands *)

Definition CommandMagic : list byte :=
  [ x40; x09; x2d; xa6; x15; xa5; xdd; xe5;
    x6a; x9d; x4d; x5a; xcf; x09; xaf; x50 ].

Definition commandMagicLen : Z := 16.

(** The five implementations of the [Command] interface, each with the
    fields of its struct ([uint8] fields are bytes, wider ones are [Z]). *)
Inductive Command : Type :=
| ResetCommand
| GlobalBrightnessSetCommand (Parameter_ : Z)
| StripBrightnessSetCommand (StripNumber_ : byte) (Parameter_ : Z)
| WiFiConfigureCommand (SSID Key : list byte) (Security : byte)
| LEDConfigureCommand (NumStrips StripLength StripType ColourOrder
                       Group Controller ArtNetUniverse ArtNetChannel : Z).

Definition CommandReset : byte := x01.
Definition CommandGlobalBrightnessSet : byte := x02.
Definition CommandWifiConfigure : byte := x03.
Definition CommandLEDConfigure : byte := x04.
Definition CommandStripBrightnessSet : byte := x05.

Definition ID (cmd : Command) : byte :=
  match cmd with
  | ResetCommand => CommandReset
  | GlobalBrightnessSetCommand _ => CommandGlobalBrightnessSet
  | StripBrightnessSetCommand _ _ => CommandStripBrightnessSet
  | WiFiConfigureCommand _ _ _ => CommandWifiConfigure
  | LEDConfigureCommand _ _ _ _ _ _ _ _ => CommandLEDConfigure
  end.

(** [WriteContentTo] into a [bytes.Buffer], whose writes cannot fail: the
    bytes appended. *)
Definition WriteContentTo (cmd : Command) : list byte :=
  match cmd with
  | ResetCommand => []
  | GlobalBrightnessSetCommand p => le_encode 2 p
  | StripBrightnessSetCommand n p => [n] ++ le_encode 2 p
  | WiFiConfigureCommand ssid key security =>
      (ssid ++ [x00]) ++ (key ++ [x00]) ++ [security]
  | LEDConfigureCommand ns sl st co g c au ac =>
      le_encode 4 ns ++ le_encode 4 sl ++ le_encode 8 st ++ le_encode 8 co ++
      le_encode 2 g ++ le_encode 2 c ++ le_encode 2 au ++ le_encode 2 ac
  end.

Definition WriteCommand (cmd : Command) (writeMagic : bool) : list byte :=
  (if writeMagic then CommandMagic else []) ++ [ID cmd] ++ WriteContentTo cmd.

Section Reading.
Context {T : Type} `{io.Reader T}.

(** The closure of [WiFiConfigureCommand.LoadContentFrom]. *)
Fixpoint readNULLTerminatedString (fuel : nat) (dr : T) (stringBytes : list byte)
  : res (list byte * T) :=
  match fuel with
  | O => OutOfFuel
  | S fuel' =>
      let '(v, err, dr') := io.ReadByte dr in
      match err with
      | Some e => Err e
      | None =>
          if Byte.eqb v x00 then Ok (stringBytes, dr')
          else readNULLTerminatedString fuel' dr' (stringBytes ++ [v])
      end
  end.

(** [struc.Unpack(r, cmd)] as the command structs use it: the error is
    returned as it is. *)
Definition unpack_fields (r : T) (sizes : list Z) : res (list (list byte) * T) :=
  do x <- struc.Unpack r sizes;
  let '(fs, err, r') := x in
  match err with
  | Some e => Err e
  | None => Ok (fs, r')
  end.

(** [LoadContentFrom] of the command selected by the command byte. *)
Definition LoadContentFrom (cmdByte : byte) (r : T) : res (Command * T) :=
  if Byte.eqb cmdByte CommandReset then Ok (ResetCommand, r)
  else if Byte.eqb cmdByte CommandGlobalBrightnessSet then
    do x <- unpack_fields r [2];
    let '(fs, r') := x in
    Ok (GlobalBrightnessSetCommand (le_decode (struc.field fs 0)), r')
  else if Byte.eqb cmdByte CommandStripBrightnessSet then
    do x <- unpack_fields r [1; 2];
    let '(fs, r') := x in
    Ok (StripBrightnessSetCommand (nth 0 (struc.field fs 0) x00)
                                  (le_decode (struc.field fs 1)), r')
  else if Byte.eqb cmdByte CommandWifiConfigure then
    do x <- readNULLTerminatedString (S (length (io.unread r))) r [];
    let '(ssid, r1) := x in
    do y <- readNULLTerminatedString (S (length (io.unread r1))) r1 [];
    let '(key, r2) := y in
    let '(security, err, r3) := io.ReadByte r2 in
    match err with
    | Some e => Err e
    | None => Ok (WiFiConfigureCommand ssid key security, r3)
    end
  else if Byte.eqb cmdByte CommandLEDConfigure then
    do x <- unpack_fields r [4; 4; 8; 8; 2; 2; 2; 2];
    let '(fs, r') := x in
    Ok (LEDConfigureCommand
          (le_decode (struc.field fs 0)) (le_decode (struc.field fs 1))
          (le_decode (struc.field fs 2)) (le_decode (struc.field fs 3))
          (le_decode (struc.field fs 4)) (le_decode (struc.field fs 5))
          (le_decode (struc.field fs 6)) (le_decode (struc.field fs 7)), r')
  else Err (ErrUnknownCommand cmdByte).

Definition known_command (cmdByte : byte) : bool :=
  Byte.eqb cmdByte CommandReset || Byte.eqb cmdByte CommandGlobalBrightnessSet ||
  Byte.eqb cmdByte CommandStripBrightnessSet || Byte.eqb cmdByte CommandWifiConfigure ||
  Byte.eqb cmdByte CommandLEDConfigure.

Definition ReadCommand (r : T) (consumeMagic : bool) : res (Command * T) :=
  do dr <-
    (if consumeMagic then
       do x <- dataio.ReadFull r (len CommandMagic);
       let '(b, err, dr) := x in
       match err with
       | Some e => Err e
       | None =>
           if bytes_Equal b CommandMagic then Ok dr else Err (ErrBadMagic b)
       end
     else Ok r);
  let '(cmdByte, err, dr) := io.ReadByte dr in
  match err with
  | Some e => Err (Wrapped "while reading command byte" e)
  | None =>
      if known_command cmdByte then
        match LoadContentFrom cmdByte dr with
        | Err e => Err (Wrapped "failed to load command" e)
        | other => other
        end
      else Err (ErrUnknownCommand cmdByte)
  end.

End Reading.

(** *** discovery.go *)

Definition DefaultPort : Z := 9798.
Definition PFlagFixedSize : Z := 2.

Record DeviceHeader : Type := mkDeviceHeader {
  StripsAttached : Z;       (* uint8 *)
  MaxStripsPerPacket : Z;   (* uint8 *)
  PixelsPerStrip : Z;       (* uint16, little *)
  UpdatePeriod : Z;         (* uint32, little *)
  PowerTotal : Z;           (* uint32, little *)
  DeltaSequence : Z;        (* uint32, little *)
  ControllerOrdinal : Z;    (* int32, little *)
  GroupOrdinal : Z;         (* int32, little *)
  ArtNetUniverse : Z;       (* int16, little *)
  ArtNetChannel : Z         (* int16, little *)
}.

(** [Device]: the embedded [DeviceHeader], then the promoted fields of
    [DeviceHeaderExt101] ([MyPort]), [DeviceHeaderExt109] ([StripFlags]) and
    [DeviceHeaderExt117] ([PusherFlags], [Segments], [PowerDomain]), then
    [Extra].  The [pad] fields hold nothing and are left out. *)
Record Device : Type := mkDevice {
  Header : DeviceHeader;
  MyPort : Z;                    (* uint16, little *)
  DevStripFlags : list StripFlags;
  PusherFlags : Z;               (* uint32, little *)
  Segments : Z;                  (* uint32, little *)
  PowerDomain : Z;               (* uint32, little *)
  Extra : list byte
}.

Definition DeviceHeader_sizes : list Z := [1; 1; 2; 4; 4; 4; 4; 4; 2; 2].
Definition DeviceHeaderExt101_sizes : list Z := [2; 2].
Definition DeviceHeaderExt117_sizes : list Z := [2; 4; 4; 4].

Definition DeviceHeader_of_fields (fs : list (list byte)) : DeviceHeader :=
  {| StripsAttached := le_decode (struc.field fs 0);
     MaxStripsPerPacket := le_decode (struc.field fs 1);
     PixelsPerStrip := le_decode (struc.field fs 2);
     UpdatePeriod := le_decode (struc.field fs 3);
     PowerTotal := le_decode (struc.field fs 4);
     DeltaSequence := le_decode (struc.field fs 5);
     ControllerOrdinal := to_signed 32 (le_decode (struc.field fs 6));
     GroupOrdinal := to_signed 32 (le_decode (struc.field fs 7));
     ArtNetUniverse := to_signed 16 (le_decode (struc.field fs 8));
     ArtNetChannel := to_signed 16 (le_decode (struc.field fs 9)) |}.

Definition pack_DeviceHeader (h : DeviceHeader) : list byte :=
  le_encode 1 (StripsAttached h) ++ le_encode 1 (MaxStripsPerPacket h) ++
  le_encode 2 (PixelsPerStrip h) ++ le_encode 4 (UpdatePeriod h) ++
  le_encode 4 (PowerTotal h) ++ le_encode 4 (DeltaSequence h) ++
  le_encode 4 (of_signed 32 (ControllerOrdinal h)) ++
  le_encode 4 (of_signed 32 (GroupOrdinal h)) ++
  le_encode 2 (of_signed 16 (ArtNetUniverse h)) ++
  le_encode 2 (of_signed 16 (ArtNetChannel h)).

Definition pack_DeviceHeaderExt101 (d : Device) : list byte :=
  le_encode 2 (MyPort d) ++ zeros 2.

Definition pack_DeviceHeaderExt117 (d : Device) : list byte :=
  zeros 2 ++ le_encode 4 (PusherFlags d) ++ le_encode 4 (Segments d) ++
  le_encode 4 (PowerDomain d).

Definition set_Extra (d : Device) (v : list byte) : Device :=
  mkDevice (Header d) (MyPort d) (DevStripFlags d) (PusherFlags d) (Segments d)
           (PowerDomain d) v.

Section ReadingDevice.
Context {T : Type} `{io.Reader T}.

(** The closure [finish] of [ReadDevice]. *)
Definition finish (d : Device) (r : T) : res Device :=
  do x <- io.ReadAll r;
  let '(v, err, _) := x in
  match err with
  | Some e => Err e
  | None => Ok (set_Extra d v)
  end.

Definition ReadDevice (r : T) (swVersion : Z) : res Device :=
  do x <- struc.Unpack r DeviceHeader_sizes;
  let '(fs, err, r) := x in
  match err with
  | Some e => Err e
  | None =>
      let dh := DeviceHeader_of_fields fs in
      let d := {| Header := dh;
                  MyPort := DefaultPort;
                  DevStripFlags := repeat x00 (Z.to_nat (StripsAttached dh));
                  PusherFlags := 0; Segments := 0; PowerDomain := 0;
                  Extra := [] |} in
      if swVersion <? 101 then finish d r else
      do x <- struc.Unpack r DeviceHeaderExt101_sizes;
      let '(fs, err, r) := x in
      match err with
      | Some EOF => finish d r
      | Some e => Err (Wrapped "reading D101 extension header" e)
      | None =>
          let d := mkDevice (Header d) (le_decode (struc.field fs 0)) (DevStripFlags d)
                            (PusherFlags d) (Segments d) (PowerDomain d) (Extra d) in
          if swVersion <? 109 then finish d r else
          let numStripFlags := if 8 <? StripsAttached dh then StripsAttached dh else 8 in
          do x <- dataio.ReadFull r numStripFlags;
          let '(stripFlags, err, r) := x in
          match err with
          | Some EOF => finish d r
          | Some e => Err (Wrapped "reading D109 extension header" e)
          | None =>
              let d := mkDevice (Header d) (MyPort d)
                                (imap (fun i _ => nth i stripFlags x00) (DevStripFlags d))
                                (PusherFlags d) (Segments d) (PowerDomain d) (Extra d) in
              if swVersion <? 117 then finish d r else
              do x <- struc.Unpack r DeviceHeaderExt117_sizes;
              let '(fs, err, r) := x in
              match err with
              | Some EOF => finish d r
              | Some e => Err (Wrapped "reading D117 extension header" e)
              | None =>
                  let d := mkDevice (Header d) (MyPort d) (DevStripFlags d)
                                    (le_decode (struc.field fs 1))
                                    (le_decode (struc.field fs 2))
                                    (le_decode (struc.field fs 3)) (Extra d) in
                  finish d r
              end
          end
      end
  end.

End ReadingDevice.

(** [Device.Write] into a [bytes.Buffer], whose writes cannot fail: the
    bytes written. *)
Definition Write (d : Device) (swVersion : Z) : list byte :=
  pack_DeviceHeader (Header d) ++
  (if swVersion <? 101 then [] else
   pack_DeviceHeaderExt101 d ++
   (if swVersion <? 109 then [] else
    DevStripFlags d ++ zeros (8 - len (DevStripFlags d)) ++
    (if swVersion <? 117 then [] else pack_DeviceHeaderExt117 d))).

Definition FixedSize (d : Device) : Z :=
  if Z.land (PusherFlags d) PFlagFixedSize =? 0 then 0
  else
    let strips := MaxStripsPerPacket (Header d) in
    let strips := if StripsAttached (Header d) <? strips
                  then StripsAttached (Header d) else strips in
    4 + (1 + 3 * PixelsPerStrip (Header d)) * strips.

End pixelpusher.

(** ** protocol/pixelpusher/packet.go *)
Module packet.
Import pixelpusher.

Record Packet : Type := mkPacket {
  ID : Z;                        (* uint32 *)
  Command : option pixelpusher.Command;
  StripStates : list StripState
}.

Module PacketReader.
Record t : Type := mk {
  PixelsPerStrip : Z;            (* int *)
  StripFlags : list pixelpusher.StripFlags
}.
End PacketReader.

(** The [for] loop of [ReadPacket]; [states] is [pkt.StripStates]. *)
Fixpoint readStripStates (fuel : nat) (pr : PacketReader.t) (r : byteslicereader.R)
         (states : list StripState) : res (list StripState) :=
  match fuel with
  | O => OutOfFuel
  | S fuel' =>
      let '(stripNumber, err, r) := byteslicereader.ReadByte r in
      match err with
      | Some e => if io.is_EOF e then Ok states else Err e
      | None =>
          if len (PacketReader.StripFlags pr) <=? byte_to_Z stripNumber then
            Err (ErrStripIndex (byte_to_Z stripNumber) (len (PacketReader.StripFlags pr) - 1))
          else
            do flags <- index (PacketReader.StripFlags pr) (byte_to_Z stripNumber);
            let state := {| StripNumber := stripNumber;
                            Pixels := {| pixel.Layout := PixelBufferLayout flags;
                                         pixel.buf := [] |} |} in
            do x <- pixel.ReadFrom (Pixels state) r (PacketReader.PixelsPerStrip pr);
            let '(pixels, r) := x in
            readStripStates fuel' pr r
              (states ++ [{| StripNumber := stripNumber; Pixels := pixels |}])
      end
  end.

(** [ReadPacket(r, pkt)]: the packet as it is left in [pkt] on success.
    Every iteration of the loop consumes the strip-number byte, so
    [Remaining + 1] iterations reach its exit. *)
Definition ReadPacket (pr : PacketReader.t) (r : byteslicereader.R) (pkt : Packet)
  : res Packet :=
  do x <- io.ReadFull r 4;
  let '(idBytes, err, r) := x in
  match err with
  | Some e => Err e
  | None =>
      let pkt := mkPacket (be_decode idBytes) (Command pkt) (StripStates pkt) in
      do peeked <- byteslicereader.Peek r (len CommandMagic);
      if bytes_Equal peeked CommandMagic then
        do r <- byteslicereader.Seek r (len CommandMagic) byteslicereader.SeekCurrent;
        do x <- ReadCommand r false;
        let '(cmd, _) := x in
        Ok (mkPacket (ID pkt) (Some cmd) (StripStates pkt))
      else
        do states <- readStripStates (S (Z.to_nat (byteslicereader.Remaining r))) pr r [];
        Ok (mkPacket (ID pkt) (Command pkt) states)
  end.

Module PacketStream.
Record t : Type := mk {
  MaxStripsPerPacket : Z;        (* uint8 *)
  PixelsPerStrip : Z;            (* uint16 *)
  FixedSize : Z;                 (* int *)
  NextID : Z;                    (* uint32 *)
  commandBuf : list byte;        (* bytes.Buffer *)
  stripStateBuf : list byte;     (* bytes.Buffer *)
  stripStateCount : Z            (* int *)
}.
End PacketStream.
Import PacketStream.

(** The [*bytes.Buffer] handed to [resetPacketBuffer] and
    [finalizeAndSendPacket] is one of the stream's two buffers. *)
Inductive whichBuf : Type := CommandBuf | StripStateBuf.

Definition getBuf (ps : PacketStream.t) (w : whichBuf) : list byte :=
  match w with
  | CommandBuf => commandBuf ps
  | StripStateBuf => stripStateBuf ps
  end.

Definition setBuf (ps : PacketStream.t) (w : whichBuf) (b : list byte) : PacketStream.t :=
  match w with
  | CommandBuf =>
      PacketStream.mk (MaxStripsPerPacket ps) (PixelsPerStrip ps) (FixedSize ps) (NextID ps)
                      b (stripStateBuf ps) (stripStateCount ps)
  | StripStateBuf =>
      PacketStream.mk (MaxStripsPerPacket ps) (PixelsPerStrip ps) (FixedSize ps) (NextID ps)
                      (commandBuf ps) b (stripStateCount ps)
  end.

Definition setNextID (ps : PacketStream.t) (id : Z) : PacketStream.t :=
  PacketStream.mk (MaxStripsPerPacket ps) (PixelsPerStrip ps) (FixedSize ps) id
                  (commandBuf ps) (stripStateBuf ps) (stripStateCount ps).

Definition setStripStateCount (ps : PacketStream.t) (n : Z) : PacketStream.t :=
  PacketStream.mk (MaxStripsPerPacket ps) (PixelsPerStrip ps) (FixedSize ps) (NextID ps)
                  (commandBuf ps) (stripStateBuf ps) n.

Definition resetBytes (b : list byte) : list byte :=
  if len b <? 4 then [x00; x00; x00; x00] else take 4 b.

Definition resetPacketBuffer (ps : PacketStream.t) (w : whichBuf) : PacketStream.t :=
  setBuf ps w (resetBytes (getBuf ps w)).

Section Sending.
(** [network.DatagramSender]: the sender's state and its two methods. *)
Context {DS : Type}.
Variable MaxDatagramSize : DS -> Z.
Variable SendDatagram : DS -> list byte -> DS * option error.

Definition calculateMaxPacketSize (ps : PacketStream.t) (ds : DS) : Z :=
  let mps := FixedSize ps in
  let v := MaxDatagramSize ds in
  if (mps <=? 0) || (v <? mps) then v else mps.

(** The error returned together with the stream and the sender as the call
    leaves them.  [buf.Bytes()[:4]] needs the four reserved bytes, which
    every caller has put there with [resetPacketBuffer]. *)
Definition finalizeAndSendPacket (ps : PacketStream.t) (ds : DS) (w : whichBuf)
  : res (option error * PacketStream.t * DS) :=
  if len (getBuf ps w) <? 4 then Panic else
  let ps := setBuf ps w (be_encode 4 (NextID ps) ++ drop 4 (getBuf ps w)) in
  let mds := MaxDatagramSize ds in
  if mds <? len (getBuf ps w) then
    Ok (Some (ErrPacketSize (len (getBuf ps w)) mds), ps, ds)
  else
    let fs := FixedSize ps in
    let ps := if (0 <? fs) && (len (getBuf ps w) <? fs)
              then setBuf ps w (getBuf ps w ++ zeros (fs - len (getBuf ps w)))
              else ps in
    let '(ds, err) := SendDatagram ds (getBuf ps w) in
    match err with
    | Some e => Ok (Some e, ps, ds)
    | None =>
        let ps := resetPacketBuffer ps w in
        Ok (None, setNextID ps ((NextID ps + 1) mod 2 ^ 32), ds)
    end.

Definition SendCommand (ps : PacketStream.t) (ds : DS) (cmd : pixelpusher.Command)
  : res (option error * PacketStream.t * DS) :=
  let ps := resetPacketBuffer ps CommandBuf in
  let ps := setBuf ps CommandBuf (getBuf ps CommandBuf ++ WriteCommand cmd true) in
  finalizeAndSendPacket ps ds CommandBuf.

Definition Flush (ps : PacketStream.t) (ds : DS)
  : res (option error * PacketStream.t * DS) :=
  if stripStateCount ps =? 0 then Ok (None, ps, ds)
  else
    do x <- finalizeAndSendPacket ps ds StripStateBuf;
    let '(err, ps, ds) := x in
    match err with
    | Some e => Ok (Some e, ps, ds)
    | None => Ok (None, setStripStateCount ps 0, ds)
    end.

(** [data] is taken from the caller's strip state before the conforming
    clone is made, and it is [data] that is measured and written; of the
    clone only the strip number is read. *)
Definition SendOrEnqueueStripState (ps : PacketStream.t) (ds : DS) (ss : StripState)
  : res (option error * PacketStream.t * DS) :=
  let data := pixel.Bytes (Pixels ss) in
  if len data =? 0 then Ok (None, ps, ds) else
  do ss <-
    (if (0 <? PixelsPerStrip ps) && negb (pixel.Len (Pixels ss) =? PixelsPerStrip ps) then
       do pixels <- pixel.CloneFromWithLen
                      {| pixel.Layout := pixel.BufferRGB; pixel.buf := [] |}
                      (Pixels ss) (PixelsPerStrip ps);
       Ok {| StripNumber := StripNumber ss; Pixels := pixels |}
     else Ok ss);
  let ps := if stripStateCount ps =? 0 then resetPacketBuffer ps StripStateBuf else ps in
  let mps := calculateMaxPacketSize ps ds in
  let stripDataSize := 1 + len data in
  do x <-
    (if (0 <? mps) && (mps <? len (stripStateBuf ps) + stripDataSize) then
       if stripStateCount ps =? 0 then Ok (Some ErrStripDataTooLarge, ps, ds)
       else
         do y <- Flush ps ds;
         let '(err, ps, ds) := y in
         match err with
         | Some e => Ok (Some e, ps, ds)
         | None =>
             if mps <? len (stripStateBuf ps) + stripDataSize
             then Ok (Some ErrStripDataTooLarge, ps, ds)
             else Ok (None, ps, ds)
         end
     else Ok (None, ps, ds));
  let '(err, ps, ds) := x in
  match err with
  | Some e => Ok (Some e, ps, ds)
  | None =>
      let ps := setBuf ps StripStateBuf (stripStateBuf ps ++ [StripNumber ss]) in
      let ps := setBuf ps StripStateBuf (stripStateBuf ps ++ data) in
      let ps := setStripStateCount ps (stripStateCount ps + 1) in
      if MaxStripsPerPacket ps <=? stripStateCount ps then Flush ps ds
      else Ok (None, ps, ds)
  end.






End Sending.

(** A sender that records what it is handed: the state of any sender
    paired with the log of the datagrams passed to [SendDatagram], each with
    the error the sender returned for it. *)
Definition recorded (DS : Type) : Type := DS * list (list byte * option error).

Section Recording.
Context {DS : Type}.
Variable MaxDatagramSize : DS -> Z.
Variable SendDatagram : DS -> list byte -> DS * option error.

Definition rec_MaxDatagramSize (s : recorded DS) : Z := MaxDatagramSize (fst s).

Definition rec_SendDatagram (s : recorded DS) (b : list byte) : recorded DS * option error :=
  let '(ds, err) := SendDatagram (fst s) b in
  ((ds, snd s ++ [(b, err)]), err).

Definition sent_ok (log : list (list byte * option error)) : Z :=
  len (filter (fun e => snd e = None) log).

End Recording.

(** A scripted sender for examples: a fixed maximum datagram size and the
    errors that the next sends return ([None]: the send succeeds; an
    exhausted script succeeds). *)
Record scripted : Type := mkScripted { mtu : Z; script : list (option error) }.

Definition scripted_MaxDatagramSize (s : scripted) : Z := mtu s.

Definition scripted_SendDatagram (s : scripted) (b : list byte) : scripted * option error :=
  match script s with
  | [] => (s, None)
  | e :: rest => ({| mtu := mtu s; script := rest |}, e)
  end.

End packet.

(** ** device: ordinal.go, the Registry and the Router's choice of target *)
Module device.

Record Ordinal : Type := mkOrdinal { Group : Z; Controller : Z }.

#[export] Instance Ordinal_eq_dec : EqDecision Ordinal.
Proof. solve_decision. Defined.

#[export] Instance Ordinal_countable : Countable Ordinal :=
  inj_countable' (fun o => (Group o, Controller o))
                 (fun p => mkOrdinal (fst p) (snd p))
                 (fun o => match o with mkOrdinal _ _ => eq_refl end).

Definition InvalidOrdinal : Ordinal := {| Group := -1; Controller := -1 |}.

Definition IsValid (o : Ordinal) : bool := (0 <=? Group o) && (0 <=? Controller o).

(** A [D] is an interface value holding a pointer to a device; the pointer
    is its identity.  What its methods answer at a given moment is the
    [World]: [ID()] never changes, [Ordinal()] and the done channel do. *)
Definition D : Type := nat.

Record World : Type := mkWorld {
  D_ID : D -> string;
  D_Ordinal : D -> Ordinal;
  IsDone : D -> bool
}.

(** A [*registryEntry] is an address in the registry's [heap] of entries;
    entries are never freed while something points to them. *)
Definition entryPtr : Type := nat.

Record registryEntry : Type := mkEntry {
  device : D;
  deviceID : string;
  registeredGroup : Z;
  registeredOrdinal : Ordinal
}.

Record Registry : Type := mkRegistry {
  heap : gmap entryPtr registryEntry;
  devices : gmap string entryPtr;
  groupMap : gmap Z (gset entryPtr);
  ordinalMap : gmap Ordinal (gset entryPtr)
}.

Definition emptyRegistry : Registry :=
  {| heap := ∅; devices := ∅; groupMap := ∅; ordinalMap := ∅ |}.

(** [e.device] for an entry pointer; [None] only for an address that was
    never allocated. *)
Definition entry_device (reg : Registry) (e : entryPtr) : option D :=
  device <$> heap reg !! e.

(** [delete(m[k], e)] followed by [if len(m[k]) == 0 { delete(m, k) }]. *)
Definition remove_from {K} `{Countable K} (m : gmap K (gset entryPtr)) (k : K) (e : entryPtr)
  : gmap K (gset entryPtr) :=
  let entries := default ∅ (m !! k) ∖ {[e]} in
  if decide (entries = ∅) then delete k m else <[k := entries]> m.

(** [entryMap := m[k]; if entryMap == nil { ... m[k] = entryMap };
    entryMap[e] = struct{}{}]. *)
Definition add_to {K} `{Countable K} (m : gmap K (gset entryPtr)) (k : K) (e : entryPtr)
  : gmap K (gset entryPtr) :=
  <[k := default ∅ (m !! k) ∪ {[e]}]> m.

Definition update_entry (reg : Registry) (e : entryPtr) (f : registryEntry -> registryEntry)
  : Registry :=
  mkRegistry (alter f e (heap reg)) (devices reg) (groupMap reg) (ordinalMap reg).

Definition removeFromGroupMapLocked (reg : Registry) (e : entryPtr) : Registry :=
  match heap reg !! e with
  | None => reg
  | Some ent =>
      let reg := mkRegistry (heap reg) (devices reg)
                            (remove_from (groupMap reg) (registeredGroup ent) e)
                            (ordinalMap reg) in
      update_entry reg e
        (fun ent => mkEntry (device ent) (deviceID ent) 0 (registeredOrdinal ent))
  end.

Definition removeFromOrdinalMapLocked (reg : Registry) (e : entryPtr) : Registry :=
  match heap reg !! e with
  | None => reg
  | Some ent =>
      let reg := mkRegistry (heap reg) (devices reg) (groupMap reg)
                            (remove_from (ordinalMap reg) (registeredOrdinal ent) e) in
      update_entry reg e
        (fun ent => mkEntry (device ent) (deviceID ent) (registeredGroup ent) (mkOrdinal 0 0))
  end.

Definition unregisterEntryLocked (reg : Registry) (e : entryPtr) : Registry :=
  match heap reg !! e with
  | None => reg
  | Some ent =>
      if decide (devices reg !! deviceID ent = Some e) then
        let reg := removeFromGroupMapLocked reg e in
        let reg := removeFromOrdinalMapLocked reg e in
        mkRegistry (heap reg) (delete (deviceID ent) (devices reg))
                   (groupMap reg) (ordinalMap reg)
      else reg
  end.

(** [unregisterEntry]: what an entry's lifecycle goroutine runs once the
    device's done channel is closed. *)
Definition unregisterEntry (reg : Registry) (e : entryPtr) : Registry :=
  unregisterEntryLocked reg e.

Section InWorld.
Variable W : World.

Definition entry_done (reg : Registry) (e : entryPtr) : bool :=
  match entry_device reg e with
  | Some d => IsDone W d
  | None => false
  end.

(** The [range] over [reg.devices]: an entry is deleted by its own visit
    only, so the loop is a fold over the entries present when it starts. *)
Definition unregisterDoneEntriesLocked (reg : Registry) : Registry :=
  foldr (fun ide reg => if entry_done reg (snd ide)
                        then unregisterEntryLocked reg (snd ide) else reg)
        reg (map_to_list (devices reg)).

Definition updateOrdinalLocked (reg : Registry) (e : entryPtr) (isNew : bool) : Registry :=
  match heap reg !! e with
  | None => reg
  | Some ent =>
      let ordinal := D_Ordinal W (device ent) in
      let reg :=
        if isNew || negb (bool_decide (registeredGroup ent = Group ordinal)) then
          let reg := if isNew then reg else removeFromGroupMapLocked reg e in
          let reg := mkRegistry (heap reg) (devices reg)
                                (add_to (groupMap reg) (Group ordinal) e)
                                (ordinalMap reg) in
          update_entry reg e
            (fun ent => mkEntry (device ent) (deviceID ent) (Group ordinal)
                                (registeredOrdinal ent))
        else reg in
      if isNew || negb (bool_decide (registeredOrdinal ent = ordinal)) then
        let reg := if isNew then reg else removeFromOrdinalMapLocked reg e in
        let reg := mkRegistry (heap reg) (devices reg) (groupMap reg)
                              (add_to (ordinalMap reg) ordinal e) in
        update_entry reg e
          (fun ent => mkEntry (device ent) (deviceID ent) (registeredGroup ent) ordinal)
      else reg
  end.

Definition checkDeviceRegistration (reg : Registry) (id : string) : bool :=
  match devices reg !! id with
  | None => false
  | Some e =>
      match heap reg !! e with
      | None => false
      | Some ent =>
          let ord := D_Ordinal W (device ent) in
          bool_decide (e ∈ default ∅ (groupMap reg !! Group ord)) &&
          bool_decide (e ∈ default ∅ (ordinalMap reg !! ord)) &&
          negb (IsDone W (device ent))
      end
  end.

Definition Add (reg : Registry) (d : D) : Registry :=
  let id := D_ID W d in
  if checkDeviceRegistration reg id then reg
  else
    let reg := unregisterDoneEntriesLocked reg in
    match devices reg !! id with
    | Some e => updateOrdinalLocked reg e false
    | None =>
        let e := fresh (dom (heap reg)) in
        let reg := mkRegistry
                     (<[e := mkEntry d id 0 (mkOrdinal 0 0)]> (heap reg))
                     (<[id := e]> (devices reg))
                     (groupMap reg) (ordinalMap reg) in
        updateOrdinalLocked reg e true
    end.

Definition Get (reg : Registry) (id : string) : option D :=
  match devices reg !! id with
  | None => None
  | Some e =>
      match entry_device reg e with
      | None => None
      | Some d => if IsDone W d then None else Some d
      end
  end.

Definition GetUniqueOrdinal (reg : Registry) (o : Ordinal) : option D :=
  let emap := default ∅ (ordinalMap reg !! o) in
  if bool_decide (size emap = 1%nat) then
    match elements emap with
    | e :: _ =>
        match entry_device reg e with
        | None => None
        | Some d => if IsDone W d then None else Some d
        end
    | [] => None
    end
  else None.

(** The choice of target at the head of [Router.Route]. *)
Definition Route_target (reg : Registry) (ordinal : Ordinal) (id : string) : option D :=
  let d := if IsValid ordinal then GetUniqueOrdinal reg ordinal else None in
  match d with
  | Some d => Some d
  | None => Get reg id
  end.

(** [Router.Route]: [deliver] stands for what follows the choice (the
    router connection, the listeners, [sendPacket]) and returns its error. *)
Definition Route (deliver : D -> option error) (reg : Registry)
           (ordinal : Ordinal) (id : string) : option error :=
  match Route_target reg ordinal id with
  | None => Some ErrNoRoute
  | Some d => deliver d
  end.

End InWorld.

End device.

(** ** Readers that behave as [io.Reader] asks

    What the proofs use of a reader, stated on its [unread] view and on the
    states the protocol code can reach ([rvalid]): a [Read] delivers as
    many of the unread bytes as fit, an error is [io.EOF], it comes when
    nothing was unread and only once nothing is left. *)
Class LawfulReader (T : Type) `{io.Reader T} : Type := {
  rvalid : T -> Prop;
  Read_lawful : forall (r : T) (n : Z),
    rvalid r -> 0 <= n ->
    exists err r',
      io.Read r n = (take (Z.to_nat n) (io.unread r), err, r') /\
      rvalid r' /\
      io.unread r' = drop (Z.to_nat n) (io.unread r) /\
      (err = None \/ err = Some EOF) /\
      (io.unread r = [] -> err = Some EOF) /\
      (err = Some EOF -> io.unread r' = []);
  ReadByte_lawful : forall (r : T),
    rvalid r ->
    match io.unread r with
    | [] => exists b, io.ReadByte r = (b, Some EOF, r)
    | x :: rest =>
        exists r', io.ReadByte r = (x, None, r') /\ rvalid r' /\ io.unread r' = rest
    end
}.

(** * The vocabulary of the properties

    What the theorems of the last part are stated with: the wire forms the
    specification describes, the conditions under which its properties are
    meant, and the configurations of the repository's tests. *)

(** ** Pixels and strips on the wire *)

(** The bytes of one pixel on the wire, as the specification lays them out:
    (R, G, B) or (R, G, B, O, O, O, W, W, W). *)
Definition wire_pixel (layout : pixel.BufferLayout) (p : pixel.P) : list byte :=
  match layout with
  | pixel.BufferRGB => [pixel.Red p; pixel.Green p; pixel.Blue p]
  | pixel.BufferRGBOW =>
      [pixel.Red p; pixel.Green p; pixel.Blue p;
       pixel.Orange p; pixel.Orange p; pixel.Orange p;
       pixel.White p; pixel.White p; pixel.White p]
  end.

(** The wire form of a strip state: its number, then its pixel bytes. *)
Definition wire_strip (ss : pixelpusher.StripState) : list byte :=
  pixelpusher.StripNumber ss :: pixel.Bytes (pixelpusher.Pixels ss).

Definition wire_strips (strips : list pixelpusher.StripState) : list byte :=
  concat (map wire_strip strips).

(** A strip state that the reader's configuration describes: its number
    indexes a flag, its layout is the flag's, and it holds
    [PixelsPerStrip] pixels. *)
Definition strip_ok (pr : packet.PacketReader.t) (ss : pixelpusher.StripState) : Prop :=
  exists flags,
    packet.PacketReader.StripFlags pr
      !! Z.to_nat (byte_to_Z (pixelpusher.StripNumber ss)) = Some flags /\
    pixel.Layout (pixelpusher.Pixels ss) = pixelpusher.PixelBufferLayout flags /\
    len (pixel.buf (pixelpusher.Pixels ss))
      = packet.PacketReader.PixelsPerStrip pr * pixel.pixelSize (pixelpusher.Pixels ss).

(** The reader of the repository's tests: two pixels per strip, strip 0 in
    RGB and strip 1 in RGBOW layout. *)
Definition example_reader : packet.PacketReader.t :=
  packet.PacketReader.mk 2 [x00; x01].

Definition example_rgbow_strip : pixelpusher.StripState :=
  pixelpusher.mkStripState x01
    (pixel.mkBuffer pixel.BufferRGBOW
       [x01; x02; x03; x04; x04; x04; x05; x05; x05;
        x06; x07; x08; x09; x09; x09; x0a; x0a; x0a]).

(** ** Commands *)

(** The commands the wire format can carry: every numeric field within its
    Go type, and no NUL byte inside the NUL-terminated strings. *)
Definition command_ok (cmd : pixelpusher.Command) : Prop :=
  match cmd with
  | pixelpusher.ResetCommand => True
  | pixelpusher.GlobalBrightnessSetCommand p => 0 <= p < 2 ^ 16
  | pixelpusher.StripBrightnessSetCommand _ p => 0 <= p < 2 ^ 16
  | pixelpusher.WiFiConfigureCommand ssid key _ =>
      Forall (fun b => b <> x00) ssid /\ Forall (fun b => b <> x00) key
  | pixelpusher.LEDConfigureCommand ns sl st co g c au ac =>
      0 <= ns < 2 ^ 32 /\ 0 <= sl < 2 ^ 32 /\ 0 <= st < 2 ^ 64 /\ 0 <= co < 2 ^ 64 /\
      0 <= g < 2 ^ 16 /\ 0 <= c < 2 ^ 16 /\ 0 <= au < 2 ^ 16 /\ 0 <= ac < 2 ^ 16
  end.

(** ** Packet streams *)

Section StreamVocabulary.
Import packet packet.PacketStream.
Context {DS : Type}.
Variable MaxDatagramSize : DS -> Z.
Variable SendDatagram : DS -> list byte -> DS * option error.




End StreamVocabulary.

(** A stream as [Device.PacketStream] makes it, with one RGB strip of one
    pixel to send. *)
Definition example_stream (fixedSize : Z) : packet.PacketStream.t :=
  packet.PacketStream.mk 2 0 fixedSize 64206 [] [] 0.

Definition example_strip : pixelpusher.StripState :=
  pixelpusher.mkStripState x00 (pixel.mkBuffer pixel.BufferRGB [x01; x02; x03]).

(** ** Registered devices *)

Section RegistryVocabulary.
Import device.
Variable W : World.

(** "Exactly one device is registered with the ordinal, and it is not
    done": the ordinal's entry set is a singleton whose device is live. *)
Definition uniquely_registered (reg : Registry) (o : Ordinal) (d : D) : Prop :=
  exists e, default ∅ (ordinalMap reg !! o) = {[e]} /\
            entry_device reg e = Some d /\ IsDone W d = false.

(** "A non-done device is registered under the ID." *)
Definition registered_under (reg : Registry) (id : string) (d : D) : Prop :=
  exists e, devices reg !! id = Some e /\
            entry_device reg e = Some d /\ IsDone W d = false.

(** "Exactly one non-done device is registered with the ordinal", counting
    the live devices among the ordinal's entries. *)
Definition sole_live_device (reg : Registry) (o : Ordinal) (d : D) : Prop :=
  forall d', (exists e, e ∈ default ∅ (ordinalMap reg !! o) /\
                        entry_device reg e = Some d' /\ IsDone W d' = false)
             <-> d' = d.

End RegistryVocabulary.

(** Two devices with the IDs "foo" and "bar" that report the same ordinal;
    in [world_foo_done] the first one's done channel is closed. *)
Definition world_two_devices : device.World :=
  {| device.D_ID := fun d => if decide (d = 0%nat) then "foo" else "bar";
     device.D_Ordinal := fun _ => device.mkOrdinal 5 10;
     device.IsDone := fun _ => false |}.

Definition world_foo_done : device.World :=
  {| device.D_ID := device.D_ID world_two_devices;
     device.D_Ordinal := device.D_Ordinal world_two_devices;
     device.IsDone := fun d => bool_decide (d = 0%nat) |}.

Definition registry_two_devices : device.Registry :=
  device.Add world_two_devices (device.Add world_two_devices device.emptyRegistry 0%nat) 1%nat.

(** ** Discovery beacons *)

(** The PixelPusher block of a well-formed beacon of software revision
    [sw]: the 28-byte base block, then, as far as the revision goes, the
    port with its two bytes of padding, the strip flags padded with zeros
    to eight bytes, and two bytes of padding with the twelve bytes of
    pusher flags, segments and power domain. *)
Definition beacon_wire (sw : Z) (base port flags tail : list byte) : list byte :=
  base ++
  (if sw <? 101 then [] else
   (port ++ zeros 2) ++
   (if sw <? 109 then [] else
    (flags ++ zeros (8 - len flags)) ++
    (if sw <? 117 then [] else zeros 2 ++ tail))).

(** The PixelPusher block of the repository's test beacon: the base block
    (one strip attached) and the software-revision-101 extension with
    [my_port = 0xFACE]. *)
Definition beacon_base : list byte :=
  [ x01; x02; x03; x00; x13; x12; x11; x10; x23; x22; x21; x20; x33; x32; x31; x30;
    x43; x42; x41; x40; x53; x52; x51; x50; x61; x60; x71; x70 ].

Definition beacon_ext101 : list byte := [xce; xfa; x00; x00].

Definition beacon_header : pixelpusher.DeviceHeader :=
  pixelpusher.mkDeviceHeader 1 2 3 269554195 539042339 808530483 1078018627 1347506771
                             24673 28785.

(** * Theorems *)

(** ** Lists, bytes and slices *)

Lemma len_nonneg {A} (l : list A) : 0 <= len l.
Proof. unfold len. lia. Qed.

Lemma len_nil {A} : len (@nil A) = 0.
Proof. reflexivity. Qed.

Lemma len_cons {A} (x : A) (l : list A) : len (x :: l) = 1 + len l.
Proof. unfold len. simpl. lia. Qed.

Lemma len_app {A} (l1 l2 : list A) : len (l1 ++ l2) = len l1 + len l2.
Proof. unfold len. rewrite length_app. lia. Qed.

Lemma len_take {A} (n : Z) (l : list A) :
  0 <= n <= len l -> len (take (Z.to_nat n) l) = n.
Proof. unfold len. intros Hn. rewrite length_take. lia. Qed.

Lemma len_drop {A} (n : Z) (l : list A) :
  0 <= n <= len l -> len (drop (Z.to_nat n) l) = len l - n.
Proof. unfold len. intros Hn. rewrite length_drop. lia. Qed.

Lemma len_zeros (n : Z) : 0 <= n -> len (zeros n) = n.
Proof. unfold len, zeros. intros Hn. rewrite repeat_length. lia. Qed.

Lemma len_map {A B} (f : A -> B) (l : list A) : len (map f l) = len l.
Proof. unfold len. now rewrite length_map. Qed.

Lemma to_nat_len {A} (l : list A) : Z.to_nat (len l) = length l.
Proof. unfold len. lia. Qed.

Lemma index_head (x : byte) (l : list byte) : index (x :: l) 0 = Ok x.
Proof.
  unfold index. rewrite len_cons.
  pose proof (len_nonneg l).
  destruct (0 <? 0) eqn:E1; [lia|].
  destruct (1 + len l <=? 0) eqn:E2; [lia|]. reflexivity.
Qed.

Lemma index_tail (x : byte) (l : list byte) (k : Z) :
  0 < k -> index (x :: l) k = index l (k - 1).
Proof.
  intros Hk. unfold index. rewrite len_cons.
  destruct (k <? 0) eqn:E1; [lia|].
  destruct (k - 1 <? 0) eqn:E2; [lia|]. simpl.
  destruct (1 + len l <=? k) eqn:E3; destruct (len l <=? k - 1) eqn:E4; try lia; try reflexivity.
  replace (Z.to_nat k) with (S (Z.to_nat (k - 1))) by lia. reflexivity.
Qed.

Lemma index_app_r (pre l : list byte) (k : Z) :
  0 <= k -> index (pre ++ l) (len pre + k) = index l k.
Proof.
  intros Hk. induction pre as [|x pre IH].
  - rewrite app_nil_l, len_nil. now replace (0 + k) with k by lia.
  - rewrite <- app_comm_cons, len_cons. pose proof (len_nonneg pre).
    rewrite index_tail by lia. rewrite <- IH. f_equal. lia.
Qed.

Lemma store_head (x y : byte) (l : list byte) : store (x :: l) 0 y = Ok (y :: l).
Proof.
  unfold store. rewrite len_cons. pose proof (len_nonneg l).
  destruct (0 <? 0) eqn:E1; [lia|].
  destruct (1 + len l <=? 0) eqn:E2; [lia|]. reflexivity.
Qed.

Lemma store_tail (x y : byte) (l : list byte) (k : Z) :
  0 < k -> store (x :: l) k y = do l' <- store l (k - 1) y; Ok (x :: l').
Proof.
  intros Hk. unfold store. rewrite len_cons.
  destruct (k <? 0) eqn:E1; [lia|].
  destruct (k - 1 <? 0) eqn:E2; [lia|]. simpl.
  destruct (1 + len l <=? k) eqn:E3; destruct (len l <=? k - 1) eqn:E4; try lia; try reflexivity.
  simpl. replace (Z.to_nat k) with (S (Z.to_nat (k - 1))) by lia. reflexivity.
Qed.

Lemma store_app_r (pre l : list byte) (k : Z) (y : byte) :
  0 <= k -> store (pre ++ l) (len pre + k) y = do l' <- store l k y; Ok (pre ++ l').
Proof.
  intros Hk. induction pre as [|x pre IH].
  - rewrite app_nil_l, len_nil. replace (0 + k) with k by lia.
    destruct (store l k y); reflexivity.
  - rewrite <- app_comm_cons, len_cons. pose proof (len_nonneg pre).
    rewrite store_tail by lia.
    replace (1 + len pre + k - 1) with (len pre + k) by lia.
    rewrite IH. destruct (store l k y); reflexivity.
Qed.

Lemma split_at {A} (l : list A) (n k : Z) :
  0 <= n -> 0 <= k -> n + k <= len l ->
  exists pre mid post, l = pre ++ mid ++ post /\ len pre = n /\ len mid = k.
Proof.
  intros Hn Hk Hl.
  exists (take (Z.to_nat n) l), (take (Z.to_nat k) (drop (Z.to_nat n) l)),
         (drop (Z.to_nat k) (drop (Z.to_nat n) l)).
  split; [now rewrite !take_drop|].
  split; [apply len_take; lia|].
  apply len_take. rewrite len_drop; lia.
Qed.

Lemma byte_to_Z_range (b : byte) : 0 <= byte_to_Z b < 256.
Proof.
  unfold byte_to_Z. pose proof (Byte.to_N_bounded b). lia.
Qed.

Lemma byte_of_to_Z (b : byte) : byte_of_Z (byte_to_Z b) = b.
Proof.
  unfold byte_of_Z. pose proof (byte_to_Z_range b) as Hr.
  rewrite Z.mod_small by lia. unfold byte_to_Z.
  rewrite N2Z.id, Byte.of_to_N. reflexivity.
Qed.

Lemma byte_to_of_Z (z : Z) : byte_to_Z (byte_of_Z z) = z mod 256.
Proof.
  unfold byte_of_Z.
  pose proof (Z.mod_pos_bound z 256 ltac:(lia)) as Hm.
  destruct (Byte.of_N (Z.to_N (z mod 256))) as [b|] eqn:E.
  - apply Byte.to_of_N in E. unfold byte_to_Z. rewrite E. lia.
  - apply Byte.of_N_None_iff in E. lia.
Qed.

(** ** byteslicereader.R.Next and pixel.Buffer.ReadFrom *)

Lemma Next_cases (r : byteslicereader.R) (n : Z) :
  byteslicereader.Next r n =
    if n <? 0 then Panic
    else if n <? byteslicereader.Remaining r
         then Ok (take (Z.to_nat n) (byteslicereader.remainingSlice r), None,
                  byteslicereader.set_pos r (byteslicereader.pos r + n))
         else Ok (byteslicereader.remainingSlice r, Some EOF,
                  byteslicereader.set_pos r
                    (byteslicereader.pos r + byteslicereader.Remaining r)).
Proof.
  unfold byteslicereader.Next, byteslicereader.Remaining, slice_to, copy_bytes.
  set (v := byteslicereader.remainingSlice r).
  pose proof (len_nonneg v) as Hv.
  destruct (n <? 0) eqn:En.
  - replace (n <? len v) with true by lia. reflexivity.
  - destruct (n <? len v) eqn:El.
    + replace (len v <? n) with false by lia. cbn [orb bind].
      destruct (byteslicereader.AlwaysCopy r); cbn [app];
        rewrite len_take by lia; reflexivity.
    + cbn [bind]. destruct (byteslicereader.AlwaysCopy r); reflexivity.
Qed.

Lemma ReadFrom_short_of_remaining (r : byteslicereader.R)
      (pb : pixel.Buffer) (size : Z) :
  byteslicereader.Remaining r < wrap64 (size * pixel.pixelSize pb) ->
  pixel.ReadFrom pb r size = Err (Wrapped "could not read pixel buffer" EOF).
Proof.
  intros Hsize. unfold pixel.ReadFrom.
  pose proof (len_nonneg (byteslicereader.remainingSlice r)) as Hrem.
  fold (byteslicereader.Remaining r) in Hrem.
  rewrite Next_cases.
  replace (wrap64 (size * pixel.pixelSize pb) <? 0) with false by lia.
  replace (wrap64 (size * pixel.pixelSize pb) <? byteslicereader.Remaining r)
    with false by lia.
  cbn [bind]. fold (byteslicereader.Remaining r).
  replace (byteslicereader.Remaining r =? wrap64 (size * pixel.pixelSize pb))
    with false by lia.
  reflexivity.
Qed.



(** ** pixel.Buffer.Pixel and SetPixel *)

(** C6, evaluated on the code.  A buffer that adopted four bytes in RGB
    layout has one pixel, yet [Pixel(1)] and [SetPixel(1, p)] pass the
    bounds guard (offset 3 is below 4) and panic on the missing bytes; and
    on a whole buffer of two pixels an index whose product with the pixel
    size wraps around to an offset inside the buffer returns bytes of the
    buffer.  Neither returns the zero pixel nor leaves the buffer alone. *)
Theorem Pixel_out_of_bounds_not_harmless :
  let pb4 := pixel.UseBytes (pixel.mkBuffer pixel.BufferRGB []) [x01; x02; x03; x04] in
  let pb6 := pixel.UseBytes (pixel.mkBuffer pixel.BufferRGB [])
                            [x01; x02; x03; x04; x05; x06] in
  let p := pixel.mkP x09 x09 x09 x09 x09 in
  (pixel.Len pb4 = 1 /\
   pixel.Pixel pb4 1 = Panic /\
   pixel.SetPixel pb4 1 p = Panic) /\
  (pixel.Len pb6 = 2 /\
   2 <= 6148914691236517206 <= maxInt /\
   pixel.Pixel pb6 6148914691236517206 = Ok (pixel.mkP x03 x04 x05 x00 x00) /\
   pixel.SetPixel pb6 6148914691236517206 p
     = Ok (pixel.mkBuffer pixel.BufferRGB [x01; x02; x09; x09; x09; x06])).
Proof.
  cbv zeta. repeat split; try (vm_compute; congruence); vm_compute; reflexivity.
Qed.

Lemma wrap64_small (z : Z) : - 2 ^ 63 <= z < 2 ^ 63 -> wrap64 z = z.
Proof. intros Hz. unfold wrap64. rewrite Z.mod_small; lia. Qed.

Lemma store_head_eq (x y : byte) (l : list byte) (k : Z) :
  k = 0 -> store (x :: l) k y = Ok (y :: l).
Proof. intros ->. apply store_head. Qed.

Lemma index_head_eq (x : byte) (l : list byte) (k : Z) :
  k = 0 -> index (x :: l) k = Ok x.
Proof. intros ->. apply index_head. Qed.

Lemma pixelSize_pos (pb : pixel.Buffer) : 0 < pixel.pixelSize pb <= 9.
Proof. unfold pixel.pixelSize. destruct (pixel.Layout pb); lia. Qed.

Lemma Len_bounds (pb : pixel.Buffer) (i : Z) :
  0 <= i < pixel.Len pb ->
  0 <= i * pixel.pixelSize pb /\
  i * pixel.pixelSize pb + pixel.pixelSize pb <= len (pixel.buf pb).
Proof.
  intros [Hi Hlen]. unfold pixel.Len in Hlen.
  pose proof (pixelSize_pos pb) as Hps.
  pose proof (len_nonneg (pixel.buf pb)) as Hl.
  rewrite Z.quot_div_nonneg in Hlen by lia.
  pose proof (Z.mul_div_le (len (pixel.buf pb)) (pixel.pixelSize pb) ltac:(lia)) as Hm.
  split; nia.
Qed.

Ltac store_step :=
  rewrite store_app_r by lia;
  repeat (rewrite store_tail by lia);
  rewrite store_head_eq by lia;
  cbn [bind].

Ltac index_step :=
  rewrite index_app_r by lia;
  repeat (rewrite index_tail by lia);
  rewrite index_head_eq by lia;
  cbn [bind].

Lemma SetPixel_in_range (pb : pixel.Buffer) (i : Z) (p : pixel.P)
      (pre mid post : list byte) :
  pixel.buf pb = pre ++ mid ++ post ->
  len pre = i * pixel.pixelSize pb ->
  len mid = pixel.pixelSize pb ->
  len (pixel.buf pb) <= maxInt ->
  let pb' := pixel.mkBuffer (pixel.Layout pb)
                            (pre ++ wire_pixel (pixel.Layout pb) p ++ post) in
  pixel.SetPixel pb i p = Ok pb' /\
  pixel.Pixel pb' i =
    Ok (match pixel.Layout pb with
        | pixel.BufferRGB =>
            pixel.mkP (pixel.Red p) (pixel.Green p) (pixel.Blue p) x00 x00
        | pixel.BufferRGBOW => p
        end).
Proof.
  intros Hbuf Hpre Hmid Hmax pb'.
  pose proof (len_nonneg pre) as Hp0. pose proof (len_nonneg post) as Hq0.
  assert (len (pixel.buf pb) = len pre + len mid + len post) as Hlen
    by (rewrite Hbuf, !len_app; lia).
  unfold maxInt in Hmax.
  assert (Hoff : wrap64 (i * pixel.pixelSize pb) = len pre + 0).
  { rewrite wrap64_small; pose proof (pixelSize_pos pb); lia. }
  assert (Hoff' : wrap64 (i * pixel.pixelSize pb') = len pre + 0) by exact Hoff.
  unfold pixel.SetPixel, pixel.Pixel. rewrite Hoff, Hoff'.
  destruct pb as [layout b]. cbn [pixel.Layout pixel.buf] in *. subst b pb'.
  cbn [pixel.Layout pixel.buf].
  unfold pixel.pixelSize in Hmid; cbn [pixel.Layout] in Hmid.
  destruct layout.
  - destruct mid as [|m0 [|m1 [|m2 [|m3 mid]]]];
      rewrite ?len_cons, ?len_nil in Hmid; try lia; try (pose proof (len_nonneg mid); lia).
    cbn [wire_pixel app].
    replace (len pre + 0 <? 0) with false by lia.
    replace (len (pre ++ m0 :: m1 :: m2 :: post) <=? len pre + 0) with false
      by (rewrite len_app, !len_cons; lia).
    replace (len (pre ++ pixel.Red p :: pixel.Green p :: pixel.Blue p :: post)
               <=? len pre + 0) with false
      by (rewrite len_app, !len_cons; lia).
    cbn [orb]. rewrite <- !Z.add_assoc. cbn [Z.add Pos.add].
    split.
    + do 3 store_step. reflexivity.
    + do 3 index_step. destruct p; reflexivity.
  - destruct mid as [|m0 [|m1 [|m2 [|m3 [|m4 [|m5 [|m6 [|m7 [|m8 [|m9 mid]]]]]]]]]];
      rewrite ?len_cons, ?len_nil in Hmid; try lia; try (pose proof (len_nonneg mid); lia).
    cbn [wire_pixel app].
    replace (len pre + 0 <? 0) with false by lia.
    replace (len (pre ++ m0 :: m1 :: m2 :: m3 :: m4 :: m5 :: m6 :: m7 :: m8 :: post)
               <=? len pre + 0) with false
      by (rewrite len_app, !len_cons; lia).
    match goal with
    | |- context [len (pre ++ ?l) <=? len pre + 0] =>
        replace (len (pre ++ l) <=? len pre + 0) with false
          by (rewrite len_app, !len_cons; lia)
    end.
    cbn [orb]. rewrite <- !Z.add_assoc. cbn [Z.add Pos.add].
    split.
    + do 9 store_step. reflexivity.
    + do 5 index_step. destruct p; reflexivity.
Qed.

(** C7.  For a buffer holding at least [i + 1] pixels, [SetPixel(i, p)]
    followed by [Pixel(i)] yields [p]'s red, green and blue in either
    layout and all five components in RGBOW layout; the bytes written are
    (R, G, B) in RGB layout and (R, G, B, O, O, O, W, W, W) in RGBOW
    layout, so the three O bytes and the three W bytes are identical
    copies.  The bytes of the other pixels are left as they were. *)
Theorem SetPixel_then_Pixel (pb : pixel.Buffer) (i : Z) (p : pixel.P) :
  0 <= i < pixel.Len pb ->
  len (pixel.buf pb) <= maxInt ->
  exists pb' q,
    pixel.SetPixel pb i p = Ok pb' /\
    pixel.Pixel pb' i = Ok q /\
    pixel.Red q = pixel.Red p /\ pixel.Green q = pixel.Green p /\
    pixel.Blue q = pixel.Blue p /\
    (pixel.Layout pb = pixel.BufferRGBOW -> q = p) /\
    pixel.Layout pb' = pixel.Layout pb /\
    take (Z.to_nat (pixel.pixelSize pb))
         (drop (Z.to_nat (i * pixel.pixelSize pb)) (pixel.Bytes pb'))
      = wire_pixel (pixel.Layout pb) p /\
    take (Z.to_nat (i * pixel.pixelSize pb)) (pixel.Bytes pb')
      = take (Z.to_nat (i * pixel.pixelSize pb)) (pixel.Bytes pb) /\
    drop (Z.to_nat ((i + 1) * pixel.pixelSize pb)) (pixel.Bytes pb')
      = drop (Z.to_nat ((i + 1) * pixel.pixelSize pb)) (pixel.Bytes pb).
Proof.
  intros Hi Hmax.
  destruct (Len_bounds pb i Hi) as [Hlo Hhi].
  pose proof (pixelSize_pos pb) as Hps.
  destruct (split_at (pixel.buf pb) (i * pixel.pixelSize pb) (pixel.pixelSize pb))
    as (pre & mid & post & Hbuf & Hpre & Hmid); try lia.
  destruct (SetPixel_in_range pb i p pre mid post Hbuf Hpre Hmid Hmax) as [Hset Hget].
  eexists _, _. split; [exact Hset|]. split; [exact Hget|].
  assert (Hwire : len (wire_pixel (pixel.Layout pb) p) = pixel.pixelSize pb)
    by (unfold pixel.pixelSize; destruct (pixel.Layout pb); reflexivity).
  assert (Hnpre : Z.to_nat (i * pixel.pixelSize pb) = length pre)
    by (rewrite <- Hpre; apply to_nat_len).
  assert (Hnmid : Z.to_nat (pixel.pixelSize pb) = length mid)
    by (rewrite <- Hmid; apply to_nat_len).
  assert (Hnwire : Z.to_nat (pixel.pixelSize pb) = length (wire_pixel (pixel.Layout pb) p))
    by (rewrite <- Hwire; apply to_nat_len).
  assert (Hnext : Z.to_nat ((i + 1) * pixel.pixelSize pb) = (length pre + length mid)%nat)
    by lia.
  unfold pixel.Bytes. cbn [pixel.buf pixel.Layout]. rewrite Hbuf.
  repeat split.
  - destruct (pixel.Layout pb); reflexivity.
  - destruct (pixel.Layout pb); reflexivity.
  - destruct (pixel.Layout pb); reflexivity.
  - intros ->. reflexivity.
  - rewrite Hnpre, drop_app_length. rewrite Hnwire. apply take_app_length.
  - rewrite Hnpre, !take_app_length. reflexivity.
  - rewrite Hnext. rewrite !drop_app_add.
    rewrite Hnmid in Hnwire. rewrite Hnwire at 1.
    now rewrite !drop_app_length.
Qed.

Lemma SetPixel_then_Pixel_witness :
  exists pb' q,
    pixel.SetPixel (pixel.mkBuffer pixel.BufferRGBOW (zeros 18)) 1
                   (pixel.mkP x01 x02 x03 x04 x05) = Ok pb' /\
    pixel.Pixel pb' 1 = Ok q /\
    q = pixel.mkP x01 x02 x03 x04 x05 /\
    drop 9 (pixel.Bytes pb') = [x01; x02; x03; x04; x04; x04; x05; x05; x05].
Proof.
  destruct (SetPixel_then_Pixel (pixel.mkBuffer pixel.BufferRGBOW (zeros 18)) 1
                                (pixel.mkP x01 x02 x03 x04 x05))
    as (pb' & q & Hset & Hget & _ & _ & _ & Hq & _ & Hwire & _ & _).
  - vm_compute. split; [congruence | reflexivity].
  - vm_compute. congruence.
  - exists pb', q. split; [exact Hset|]. split; [exact Hget|].
    split; [apply Hq; reflexivity|].
    vm_compute in Hset. injection Hset as <-. reflexivity.
Defined.

(** On a buffer of whole pixels and for an index whose byte offset does not
    overflow [int], an index outside the buffer is harmless.  (The failing
    inputs of [Pixel_out_of_bounds_not_harmless] lie outside these two
    conditions.) *)
Lemma Pixel_out_of_bounds_whole_pixels (pb : pixel.Buffer) (i : Z) (p : pixel.P) :
  len (pixel.buf pb) mod pixel.pixelSize pb = 0 ->
  - 2 ^ 63 <= i * pixel.pixelSize pb < 2 ^ 63 ->
  i < 0 \/ pixel.Len pb <= i ->
  pixel.Pixel pb i = Ok pixel.zeroP /\ pixel.SetPixel pb i p = Ok pb.
Proof.
  intros Hwhole Hfit Hout.
  pose proof (pixelSize_pos pb) as Hps.
  pose proof (len_nonneg (pixel.buf pb)) as Hl.
  unfold pixel.Pixel, pixel.SetPixel. rewrite wrap64_small by exact Hfit.
  assert ((i * pixel.pixelSize pb <? 0) || (len (pixel.buf pb) <=? i * pixel.pixelSize pb)
          = true) as ->; [|split; reflexivity].
  destruct Hout as [Hneg | Hge].
  - apply orb_true_iff. left. apply Z.ltb_lt. nia.
  - apply orb_true_iff. right. apply Z.leb_le.
    unfold pixel.Len in Hge. rewrite Z.quot_div_nonneg in Hge by lia.
    pose proof (Z.div_mod (len (pixel.buf pb)) (pixel.pixelSize pb) ltac:(lia)) as Hdm.
    rewrite Hwhole in Hdm. nia.
Qed.

Lemma Pixel_out_of_bounds_whole_pixels_witness :
  pixel.Pixel (pixel.mkBuffer pixel.BufferRGB [x01; x02; x03]) 1 = Ok pixel.zeroP /\
  pixel.SetPixel (pixel.mkBuffer pixel.BufferRGB [x01; x02; x03]) 1 pixel.zeroP
    = Ok (pixel.mkBuffer pixel.BufferRGB [x01; x02; x03]).
Proof.
  apply (Pixel_out_of_bounds_whole_pixels
           (pixel.mkBuffer pixel.BufferRGB [x01; x02; x03]) 1 pixel.zeroP).
  - reflexivity.
  - vm_compute. split; congruence.
  - right. vm_compute. congruence.
Defined.

(** ** pixel.Buffer.AntiLog *)

Lemma AntiLog_loop_maps (layout : pixel.BufferLayout) (fuel : nat) :
  forall pre post : list byte,
    (length post <= fuel)%nat ->
    pixel.AntiLog_loop fuel layout (len pre) 0 (pre ++ post)
      = Ok (pre ++ map pixel.pixelLinearExp post).
Proof.
  induction fuel as [|fuel IH]; intros pre post Hfuel.
  - destruct post; [|simpl in Hfuel; lia].
    cbn [pixel.AntiLog_loop map]. rewrite app_nil_r, Z.ltb_irrefl. reflexivity.
  - destruct post as [|x post].
    + cbn [pixel.AntiLog_loop map]. rewrite app_nil_r, Z.ltb_irrefl. reflexivity.
    + cbn [pixel.AntiLog_loop].
      pose proof (len_nonneg pre) as Hp. pose proof (len_nonneg post) as Hq.
      replace (len pre <? len (pre ++ x :: post)) with true
        by (rewrite len_app, len_cons; lia).
      replace (index (pre ++ x :: post) (len pre)) with (Ok x)
        by (replace (len pre) with (len pre + 0) at 1 by lia;
            rewrite index_app_r, index_head by lia; reflexivity).
      cbn [bind].
      replace (store (pre ++ x :: post) (len pre) (pixel.pixelLinearExp x))
        with (Ok (pre ++ pixel.pixelLinearExp x :: post))
        by (replace (len pre) with (len pre + 0) at 1 by lia;
            rewrite store_app_r, store_head by lia; reflexivity).
      cbn [bind].
      assert (Hnext : pixel.AntiLog_loop fuel layout (len pre + 1) 0
                        (pre ++ pixel.pixelLinearExp x :: post)
                      = Ok (pre ++ map pixel.pixelLinearExp (x :: post))).
      { replace (len pre + 1) with (len (pre ++ [pixel.pixelLinearExp x]))
          by (rewrite len_app, len_cons, len_nil; lia).
        replace (pre ++ pixel.pixelLinearExp x :: post)
          with ((pre ++ [pixel.pixelLinearExp x]) ++ post)
          by (now rewrite <- app_assoc).
        rewrite IH by (simpl in Hfuel; lia).
        now rewrite <- app_assoc. }
      destruct layout; exact Hnext.
Qed.

(** C5.  [AntiLog] equals the per-byte table map: whatever the layout, the
    implementation with its index-skipping branches returns the buffer in
    which every byte (the duplicated O and W bytes of RGBOW included) is the
    table's entry for the original byte; the table has one entry for every
    byte value. *)
Theorem AntiLog_is_table_map (pb : pixel.Buffer) :
  pixel.AntiLog pb = Ok (pixel.antilog_spec pb) /\
  (forall (k : nat) (b : byte),
     pixel.Bytes pb !! k = Some b ->
     pixel.Bytes (pixel.antilog_spec pb) !! k = Some (pixel.pixelLinearExp b)) /\
  length (pixel.Bytes (pixel.antilog_spec pb)) = length (pixel.Bytes pb) /\
  length pixel.pixelLinearExp_table = 256%nat.
Proof.
  split; [|split; [|split]].
  - unfold pixel.AntiLog, pixel.antilog_spec.
    pose proof (AntiLog_loop_maps (pixel.Layout pb) (length (pixel.buf pb)) []
                                  (pixel.buf pb) ltac:(lia)) as Hloop.
    rewrite len_nil, !app_nil_l in Hloop. rewrite Hloop. reflexivity.
  - intros k b Hk. unfold pixel.antilog_spec, pixel.Bytes in *. cbn [pixel.buf].
    change (map pixel.pixelLinearExp (pixel.buf pb))
      with (pixel.pixelLinearExp <$> pixel.buf pb).
    rewrite list_lookup_fmap, Hk. reflexivity.
  - unfold pixel.antilog_spec, pixel.Bytes. cbn [pixel.buf]. apply length_map.
  - reflexivity.
Qed.

(** ** packet.PacketStream *)

Section StreamProofs.
Import packet packet.PacketStream.
Context {DS : Type}.
Variable MaxDatagramSize : DS -> Z.
Variable SendDatagram : DS -> list byte -> DS * option error.

Local Abbreviation recM := (rec_MaxDatagramSize MaxDatagramSize).
Local Abbreviation recS := (rec_SendDatagram SendDatagram).


Lemma sent_ok_nonneg (l : list (list byte * option error)) : 0 <= sent_ok l.
Proof. apply len_nonneg. Qed.




(** [finalizeAndSendPacket], spelled out for a recording sender. *)
Lemma finalize_recorded (ps : PacketStream.t) (ds : DS)
      (log : list (list byte * option error)) (w : whichBuf) :
  4 <= len (getBuf ps w) ->
  let ps1 := setBuf ps w (be_encode 4 (NextID ps) ++ drop 4 (getBuf ps w)) in
  let ps2 := if (0 <? FixedSize ps) && (len (getBuf ps1 w) <? FixedSize ps)
             then setBuf ps1 w (getBuf ps1 w ++ zeros (FixedSize ps - len (getBuf ps1 w)))
             else ps1 in
  finalizeAndSendPacket recM recS ps (ds, log) w =
    if MaxDatagramSize ds <? len (getBuf ps1 w) then
      Ok (Some (ErrPacketSize (len (getBuf ps1 w)) (MaxDatagramSize ds)), ps1, (ds, log))
    else
      match SendDatagram ds (getBuf ps2 w) with
      | (ds', Some e) => Ok (Some e, ps2, (ds', log ++ [(getBuf ps2 w, Some e)]))
      | (ds', None) =>
          Ok (None,
              setNextID (resetPacketBuffer ps2 w) ((NextID ps + 1) mod 2 ^ 32),
              (ds', log ++ [(getBuf ps2 w, None)]))
      end.
Proof.
  intros Hlen ps1 ps2.
  unfold finalizeAndSendPacket.
  replace (len (getBuf ps w) <? 4) with false by lia.
  fold ps1. unfold rec_MaxDatagramSize. cbn [fst].
  destruct (MaxDatagramSize ds <? len (getBuf ps1 w)); [reflexivity|].
  assert (HFS : FixedSize ps1 = FixedSize ps) by (destruct w; reflexivity).
  rewrite HFS. fold ps2.
  unfold rec_SendDatagram. cbn [fst snd].
  assert (HID : NextID ps2 = NextID ps).
  { unfold ps2. destruct ((0 <? FixedSize ps) && (len (getBuf ps1 w) <? FixedSize ps));
      destruct w; reflexivity. }
  destruct (SendDatagram ds (getBuf ps2 w)) as [ds' [e|]]; [reflexivity|].
  assert (HID' : NextID (resetPacketBuffer ps2 w) = NextID ps)
    by (rewrite <- HID; destruct w; reflexivity).
  rewrite HID'. reflexivity.
Qed.


Lemma next_id_step (id k : Z) :
  0 <= id < 2 ^ 32 -> k = 0 \/ k = 1 ->
  (if k =? 0 then id else (id + 1) mod 2 ^ 32) = (id + k) mod 2 ^ 32.
Proof.
  intros Hid [-> | ->]; cbn [Z.eqb]; [|reflexivity].
  rewrite Z.add_0_r, Z.mod_small; lia.
Qed.















End StreamProofs.



(** With a fixed size that does not exceed the sender's maximum (or with
    none), no datagram handed to the sender exceeds that maximum. *)
Lemma finalize_within_maximum_when_fixed_size_fits
      {DS : Type} (MaxDatagramSize : DS -> Z)
      (SendDatagram : DS -> list byte -> DS * option error)
      (ps : packet.PacketStream.t) (ds : DS) (log : list (list byte * option error))
      (w : packet.whichBuf) (err : option error) (ps' : packet.PacketStream.t)
      (ds' : DS) (log' : list (list byte * option error)) :
  4 <= len (packet.getBuf ps w) ->
  packet.PacketStream.FixedSize ps <= MaxDatagramSize ds ->
  packet.finalizeAndSendPacket (packet.rec_MaxDatagramSize MaxDatagramSize)
                               (packet.rec_SendDatagram SendDatagram) ps (ds, log) w
    = Ok (err, ps', (ds', log')) ->
  exists new, log' = log ++ new /\
              Forall (fun entry => len (fst entry) <= MaxDatagramSize ds) new.
Proof.
  intros Hlen Hfs Hfin.
  rewrite finalize_recorded in Hfin by exact Hlen. cbv zeta in Hfin.
  set (ps1 := packet.setBuf ps w _) in *.
  destruct (MaxDatagramSize ds <? len (packet.getBuf ps1 w)) eqn:Emtu.
  - injection Hfin as <- <- <- <-. exists []. rewrite app_nil_r. split; [reflexivity|].
    constructor.
  - set (ps2 := if _ : bool then _ else _) in *.
    assert (Hfit : len (packet.getBuf ps2 w) <= MaxDatagramSize ds).
    { unfold ps2.
      destruct ((0 <? packet.PacketStream.FixedSize ps)
                && (len (packet.getBuf ps1 w) <? packet.PacketStream.FixedSize ps)) eqn:E.
      - apply andb_true_iff in E as [E0 E1].
        replace (packet.getBuf (packet.setBuf ps1 w _) w)
          with (packet.getBuf ps1 w
                  ++ zeros (packet.PacketStream.FixedSize ps - len (packet.getBuf ps1 w)))
          by (destruct w; reflexivity).
        rewrite len_app, len_zeros; lia.
      - lia. }
    destruct (SendDatagram ds (packet.getBuf ps2 w)) as [ds1 [e1|]];
      injection Hfin as <- <- <- <-;
      (eexists; split; [reflexivity|]; repeat constructor; exact Hfit).
Qed.

(** C3, evaluated on the code.  The size check of [finalizeAndSendPacket]
    comes before the padding: with a fixed size of 16 and a sender whose
    maximum datagram size is 10, enqueueing one strip and flushing hands the
    sender a 16-byte datagram; with a fixed size of 32 and a maximum of 25,
    sending the Reset command hands it a 32-byte datagram.  Both sends
    succeed and [NextID] advances; neither call fails for the size. *)
Theorem finalizeAndSendPacket_pads_past_maximum :
  let recM := packet.rec_MaxDatagramSize packet.scripted_MaxDatagramSize in
  let recS := packet.rec_SendDatagram packet.scripted_SendDatagram in
  (exists ps1 ds1 ps2 datagram,
     packet.SendOrEnqueueStripState recM recS (example_stream 16)
       (packet.mkScripted 10 [], []) example_strip = Ok (None, ps1, ds1) /\
     packet.Flush recM recS ps1 ds1
       = Ok (None, ps2, (packet.mkScripted 10 [], [(datagram, None)])) /\
     len datagram = 16 /\ recM ds1 = 10 /\
     packet.PacketStream.NextID ps2 = packet.PacketStream.NextID (example_stream 16) + 1) /\
  (exists ps1 datagram,
     packet.SendCommand recM recS (example_stream 32) (packet.mkScripted 25 [], [])
                        pixelpusher.ResetCommand
       = Ok (None, ps1, (packet.mkScripted 25 [], [(datagram, None)])) /\
     len datagram = 32 /\
     packet.PacketStream.NextID ps1 = packet.PacketStream.NextID (example_stream 32) + 1).
Proof.
  cbv zeta. split.
  - do 4 eexists. split; [vm_compute; reflexivity|].
    split; [vm_compute; reflexivity|]. repeat split.
  - do 2 eexists. split; [vm_compute; reflexivity|]. repeat split.
Qed.

(** ** Reading from lawful readers *)

Lemma byteslicereader_Read_lawful :
  forall (r : byteslicereader.R) (n : Z),
    byteslicereader.valid r -> 0 <= n ->
    exists err r',
      io.Read r n = (take (Z.to_nat n) (io.unread r), err, r') /\
      byteslicereader.valid r' /\
      io.unread r' = drop (Z.to_nat n) (io.unread r) /\
      (err = None \/ err = Some EOF) /\
      (io.unread r = [] -> err = Some EOF) /\
      (err = Some EOF -> io.unread r' = []).
Proof.
  intros r n Hvalid Hn. unfold byteslicereader.valid in *.
  cbn [io.Read io.unread byteslicereader_Reader].
  unfold byteslicereader.Read, byteslicereader.remainingSlice, byteslicereader.set_pos.
  cbn [byteslicereader.pos byteslicereader.Buffer].
  pose proof (len_nonneg (byteslicereader.Buffer r)) as Hb.
  destruct (len (byteslicereader.Buffer r) <=? byteslicereader.pos r) eqn:E.
  + rewrite take_nil, drop_nil. change (len (@nil byte)) with 0.
    rewrite Z.add_0_r, E.
    do 2 eexists. split; [reflexivity|].
    cbn [byteslicereader.pos byteslicereader.Buffer]. rewrite E. tauto.
  + set (rem := drop (Z.to_nat (byteslicereader.pos r)) (byteslicereader.Buffer r)).
    assert (Hrem : len rem = len (byteslicereader.Buffer r) - byteslicereader.pos r)
      by (apply len_drop; lia).
    do 2 eexists. split; [reflexivity|].
    cbn [byteslicereader.pos byteslicereader.Buffer].
    pose proof (len_nonneg (take (Z.to_nat n) rem)) as Ht.
    split; [lia|].
    destruct (Z.le_gt_cases (len rem) n) as [Hall | Hpart].
    * assert (Htake : take (Z.to_nat n) rem = rem)
        by (apply take_ge; unfold len in Hall; lia).
      rewrite Htake.
      replace (len (byteslicereader.Buffer r) <=? byteslicereader.pos r + len rem)
        with true by lia.
      assert (Hdrop : drop (Z.to_nat n) rem = [])
        by (apply drop_ge; unfold len in Hall; lia).
      rewrite Hdrop. tauto.
    * rewrite len_take by lia.
      replace (len (byteslicereader.Buffer r) <=? byteslicereader.pos r + n)
        with false by lia.
      split.
      { unfold rem. rewrite drop_drop. f_equal. lia. }
      split; [tauto|]. split; [|discriminate].
      intros Hnil. rewrite Hnil, len_nil in Hrem. lia.
Qed.

Lemma byteslicereader_ReadByte_lawful :
  forall r : byteslicereader.R,
    byteslicereader.valid r ->
    match io.unread r with
    | [] => exists b, io.ReadByte r = (b, Some EOF, r)
    | x :: rest =>
        exists r', io.ReadByte r = (x, None, r') /\ byteslicereader.valid r' /\ io.unread r' = rest
    end.
Proof.
  intros r Hvalid. unfold byteslicereader.valid in *.
  cbn [io.ReadByte io.unread byteslicereader_Reader].
  unfold byteslicereader.ReadByte, byteslicereader.remainingSlice, byteslicereader.set_pos.
  pose proof (len_nonneg (byteslicereader.Buffer r)) as Hb.
  destruct (len (byteslicereader.Buffer r) <=? byteslicereader.pos r) eqn:E.
  + eauto.
  + destruct (drop (Z.to_nat (byteslicereader.pos r)) (byteslicereader.Buffer r))
      as [|x rest] eqn:Edrop.
    * apply (f_equal length) in Edrop. rewrite length_drop in Edrop.
      unfold len in E. simpl in Edrop. lia.
    * pose proof (f_equal length Edrop) as Hlen. rewrite length_drop in Hlen.
      simpl in Hlen.
      eexists. split; [|split].
      -- f_equal. f_equal.
         pose proof (lookup_drop (byteslicereader.Buffer r)
                                 (Z.to_nat (byteslicereader.pos r)) 0) as Hlk.
         rewrite Edrop, Nat.add_0_r in Hlk. cbn in Hlk. symmetry in Hlk.
         now apply nth_lookup_Some.
      -- cbn [byteslicereader.pos]. lia.
      -- cbn [byteslicereader.pos byteslicereader.Buffer].
         unfold len in *.
         destruct (Z.of_nat (length (byteslicereader.Buffer r))
                   <=? byteslicereader.pos r + 1) eqn:E1.
         ++ destruct rest; [reflexivity|]. simpl in Hlen. lia.
         ++ replace (Z.to_nat (byteslicereader.pos r + 1))
              with (Z.to_nat (byteslicereader.pos r) + 1)%nat by lia.
            rewrite <- drop_drop, Edrop. reflexivity.
Qed.

#[export] Instance byteslicereader_lawful : LawfulReader byteslicereader.R :=
  {| rvalid := byteslicereader.valid;
     Read_lawful := byteslicereader_Read_lawful;
     ReadByte_lawful := byteslicereader_ReadByte_lawful |}.

Lemma bytes_Read_lawful :
  forall (r : bytes.Reader) (n : Z),
    bytes.valid r -> 0 <= n ->
    exists err r',
      io.Read r n = (take (Z.to_nat n) (io.unread r), err, r') /\
      bytes.valid r' /\
      io.unread r' = drop (Z.to_nat n) (io.unread r) /\
      (err = None \/ err = Some EOF) /\
      (io.unread r = [] -> err = Some EOF) /\
      (err = Some EOF -> io.unread r' = []).
Proof.
  intros r n Hvalid Hn. unfold bytes.valid in *.
  cbn [io.Read io.unread bytes_Reader].
  unfold bytes.Read, bytes.unread.
  pose proof (len_nonneg (bytes.s r)) as Hb.
  destruct (len (bytes.s r) <=? bytes.i r) eqn:E.
  + rewrite take_nil, drop_nil.
    do 2 eexists. split; [reflexivity|]. rewrite E. tauto.
  + set (rem := drop (Z.to_nat (bytes.i r)) (bytes.s r)).
    assert (Hrem : len rem = len (bytes.s r) - bytes.i r) by (apply len_drop; lia).
    do 2 eexists. split; [reflexivity|].
    cbn [bytes.i bytes.s].
    pose proof (len_nonneg (take (Z.to_nat n) rem)) as Ht.
    split; [lia|].
    destruct (Z.le_gt_cases (len rem) n) as [Hall | Hpart].
    * assert (Htake : take (Z.to_nat n) rem = rem)
        by (apply take_ge; unfold len in Hall; lia).
      rewrite Htake.
      replace (len (bytes.s r) <=? bytes.i r + len rem) with true by lia.
      assert (Hdrop : drop (Z.to_nat n) rem = [])
        by (apply drop_ge; unfold len in Hall; lia).
      rewrite Hdrop. split; [reflexivity|]. split; [tauto|]. split; [|discriminate].
      intros Hnil. rewrite Hnil in Hrem. change (len (@nil byte)) with 0 in Hrem. lia.
    * rewrite len_take by lia.
      replace (len (bytes.s r) <=? bytes.i r + n) with false by lia.
      split.
      { unfold rem. rewrite drop_drop. f_equal. lia. }
      split; [tauto|]. split; [|discriminate].
      intros Hnil. rewrite Hnil in Hrem. change (len (@nil byte)) with 0 in Hrem. lia.
Qed.

Lemma bytes_ReadByte_lawful :
  forall r : bytes.Reader,
    bytes.valid r ->
    match io.unread r with
    | [] => exists b, io.ReadByte r = (b, Some EOF, r)
    | x :: rest =>
        exists r', io.ReadByte r = (x, None, r') /\ bytes.valid r' /\ io.unread r' = rest
    end.
Proof.
  intros r Hvalid. unfold bytes.valid in *.
  cbn [io.ReadByte io.unread bytes_Reader].
  unfold bytes.ReadByte, bytes.unread.
  pose proof (len_nonneg (bytes.s r)) as Hb.
  destruct (len (bytes.s r) <=? bytes.i r) eqn:E.
  + eauto.
  + destruct (drop (Z.to_nat (bytes.i r)) (bytes.s r)) as [|x rest] eqn:Edrop.
    * apply (f_equal length) in Edrop. rewrite length_drop in Edrop.
      unfold len in E. simpl in Edrop. lia.
    * pose proof (f_equal length Edrop) as Hlen. rewrite length_drop in Hlen.
      simpl in Hlen.
      eexists. split; [|split].
      -- f_equal. f_equal.
         pose proof (lookup_drop (bytes.s r) (Z.to_nat (bytes.i r)) 0) as Hlk.
         rewrite Edrop, Nat.add_0_r in Hlk. cbn in Hlk. symmetry in Hlk.
         now apply nth_lookup_Some.
      -- cbn [bytes.i]. lia.
      -- cbn [bytes.i bytes.s]. unfold len in *.
         destruct (Z.of_nat (length (bytes.s r)) <=? bytes.i r + 1) eqn:E1.
         ++ destruct rest; [reflexivity|]. simpl in Hlen. lia.
         ++ replace (Z.to_nat (bytes.i r + 1)) with (Z.to_nat (bytes.i r) + 1)%nat by lia.
            rewrite <- drop_drop, Edrop. reflexivity.
Qed.

#[export] Instance bytes_lawful : LawfulReader bytes.Reader :=
  {| rvalid := bytes.valid;
     Read_lawful := bytes_Read_lawful;
     ReadByte_lawful := bytes_ReadByte_lawful |}.

Section LawfulReading.
Context {T : Type} `{LawfulReader T}.

Lemma ReadAtLeast_loop_done (fuel : nat) (r : T) (min : Z) (got : list byte)
      (err : option error) :
  (len got <? min) && io.is_nil err = false ->
  io.ReadAtLeast_loop fuel r min got err = Ok (got, err, r).
Proof. intros Hdone. destruct fuel; cbn [io.ReadAtLeast_loop]; now rewrite Hdone. Qed.

(** [io.ReadFull] when enough is unread: exactly [n] bytes and no error. *)
Lemma io_ReadFull_exact (r : T) (n : Z) (bs rest : list byte) :
  rvalid r -> io.unread r = bs ++ rest -> len bs = n ->
  exists r', io.ReadFull r n = Ok (bs, None, r') /\ rvalid r' /\ io.unread r' = rest.
Proof.
  intros Hvalid Hunread Hlen. pose proof (len_nonneg bs) as Hn.
  unfold io.ReadFull. cbn [io.ReadAtLeast_loop].
  change (len (@nil byte)) with 0.
  destruct (0 <? n) eqn:Epos; cbn [andb io.is_nil bind].
  - rewrite Z.sub_0_r.
    destruct (Read_lawful r n Hvalid ltac:(lia))
      as (err & r' & -> & Hvalid' & Hunread' & Herr & _ & _).
    rewrite Hunread in *.
    assert (Htake : take (Z.to_nat n) (bs ++ rest) = bs)
      by (apply take_app_length'; rewrite <- Hlen; apply to_nat_len).
    assert (Hdrop : drop (Z.to_nat n) (bs ++ rest) = rest)
      by (apply drop_app_length'; rewrite <- Hlen; apply to_nat_len).
    rewrite Htake, Hdrop in *. rewrite app_nil_l.
    rewrite ReadAtLeast_loop_done by (replace (len bs <? n) with false by lia; reflexivity).
    cbn [bind]. replace (n <=? len bs) with true by lia. eauto.
  - assert (n = 0) as -> by lia.
    destruct bs; [|rewrite len_cons in Hlen; pose proof (len_nonneg bs); lia].
    cbn [bind]. change (len (@nil byte)) with 0. cbn. eauto.
Qed.

(** [io.ReadFull] when too little is unread: [io.EOF] if nothing was, and
    [io.ErrUnexpectedEOF] otherwise; the reader is drained. *)
Lemma io_ReadFull_short (r : T) (n : Z) :
  rvalid r -> len (io.unread r) < n ->
  exists r',
    io.ReadFull r n
      = Ok (io.unread r,
            Some (match io.unread r with [] => EOF | _ => ErrUnexpectedEOF end), r') /\
    rvalid r' /\ io.unread r' = [].
Proof.
  intros Hvalid Hshort. pose proof (len_nonneg (io.unread r)) as Hl.
  unfold io.ReadFull. cbn [io.ReadAtLeast_loop].
  change (len (@nil byte)) with 0.
  replace (0 <? n) with true by lia. cbn [andb io.is_nil].
  rewrite Z.sub_0_r.
  destruct (Read_lawful r n Hvalid ltac:(lia))
    as (err & r' & -> & Hvalid' & Hunread' & Herr & Hempty & Heof).
  assert (Htake : take (Z.to_nat n) (io.unread r) = io.unread r)
    by (apply take_ge; unfold len in Hshort; lia).
  assert (Hdrop : drop (Z.to_nat n) (io.unread r) = [])
    by (apply drop_ge; unfold len in Hshort; lia).
  rewrite Htake, Hdrop in *. rewrite app_nil_l.
  destruct Herr as [-> | ->].
  - (* the reader gave the bytes without an error: one more Read meets the end *)
    assert (Hne : io.unread r <> []) by (intros Hnil; specialize (Hempty Hnil); discriminate).
    assert (Hfuel : exists k, Z.to_nat n = S k) by (exists (Z.to_nat n - 1)%nat; lia).
    destruct Hfuel as (k & ->). cbn [io.ReadAtLeast_loop].
    replace (len (io.unread r) <? n) with true by lia. cbn [andb io.is_nil].
    assert (Hmore : 0 <= n - len (io.unread r)) by lia.
    destruct (Read_lawful r' (n - len (io.unread r)) Hvalid' Hmore)
      as (err2 & r2 & -> & Hvalid2 & Hunread2 & _ & Hempty2 & _).
    rewrite Hunread' in *. rewrite take_nil, drop_nil in *. rewrite app_nil_r.
    rewrite (Hempty2 eq_refl).
    rewrite ReadAtLeast_loop_done by (cbn [io.is_nil]; apply andb_false_r).
    cbn [bind]. replace (n <=? len (io.unread r)) with false by lia.
    destruct (io.unread r) as [|x l] eqn:E; [congruence|].
    replace (0 <? len (x :: l)) with true
      by (rewrite len_cons; pose proof (len_nonneg l); lia).
    eauto.
  - rewrite ReadAtLeast_loop_done by (cbn [io.is_nil]; apply andb_false_r).
    cbn [bind]. replace (n <=? len (io.unread r)) with false by lia.
    destruct (io.unread r) as [|x l] eqn:E.
    + change (len (@nil byte)) with 0. cbn. eauto.
    + replace (0 <? len (x :: l)) with true
        by (rewrite len_cons; pose proof (len_nonneg l); lia).
      eauto.
Qed.

End LawfulReading.

Section LawfulReading2.
Context {T : Type} `{LawfulReader T}.

Lemma dataio_ReadFull_loop_done (fuel : nat) (r : T) (remaining : Z) (got : list byte) :
  remaining <= 0 -> dataio.ReadFull_loop fuel r remaining got = Ok (got, None, r).
Proof.
  intros Hdone. destruct fuel; cbn [dataio.ReadFull_loop];
    replace (0 <? remaining) with false by lia; reflexivity.
Qed.

(** [dataio.ReadFull] when enough is unread. *)
Lemma dataio_ReadFull_exact (r : T) (n : Z) (bs rest : list byte) :
  rvalid r -> io.unread r = bs ++ rest -> len bs = n ->
  exists r', dataio.ReadFull r n = Ok (bs, None, r') /\ rvalid r' /\ io.unread r' = rest.
Proof.
  intros Hvalid Hunread Hlen. pose proof (len_nonneg bs) as Hn.
  unfold dataio.ReadFull. cbn [dataio.ReadFull_loop].
  destruct (0 <? n) eqn:Epos.
  - assert (Hn0 : 0 <= n) by lia.
    destruct (Read_lawful r n Hvalid Hn0)
      as (err & r' & -> & Hvalid' & Hunread' & Herr & _ & _).
    rewrite Hunread in *.
    assert (Htake : take (Z.to_nat n) (bs ++ rest) = bs)
      by (apply take_app_length'; rewrite <- Hlen; apply to_nat_len).
    assert (Hdrop : drop (Z.to_nat n) (bs ++ rest) = rest)
      by (apply drop_app_length'; rewrite <- Hlen; apply to_nat_len).
    rewrite Htake, Hdrop in *. rewrite app_nil_l.
    replace (n - len bs) with 0 by lia.
    destruct Herr as [-> | ->].
    + rewrite dataio_ReadFull_loop_done by lia. eauto.
    + cbn. eauto.
  - assert (n = 0) as -> by lia.
    destruct bs; [|rewrite len_cons in Hlen; pose proof (len_nonneg bs); lia].
    eauto.
Qed.

(** [dataio.ReadFull] when too little is unread: the error is [io.EOF],
    whether or not some bytes were read; the reader is drained. *)
Lemma dataio_ReadFull_short (r : T) (n : Z) :
  rvalid r -> len (io.unread r) < n ->
  exists r',
    dataio.ReadFull r n = Ok (io.unread r, Some EOF, r') /\
    rvalid r' /\ io.unread r' = [].
Proof.
  intros Hvalid Hshort. pose proof (len_nonneg (io.unread r)) as Hl.
  unfold dataio.ReadFull. cbn [dataio.ReadFull_loop].
  replace (0 <? n) with true by lia.
  assert (Hn0 : 0 <= n) by lia.
  destruct (Read_lawful r n Hvalid Hn0)
    as (err & r' & -> & Hvalid' & Hunread' & Herr & Hempty & Heof).
  assert (Htake : take (Z.to_nat n) (io.unread r) = io.unread r)
    by (apply take_ge; unfold len in Hshort; lia).
  assert (Hdrop : drop (Z.to_nat n) (io.unread r) = [])
    by (apply drop_ge; unfold len in Hshort; lia).
  rewrite Htake, Hdrop in *. rewrite app_nil_l.
  destruct Herr as [-> | ->].
  - assert (Hfuel : exists k, Z.to_nat n = S k) by (exists (Z.to_nat n - 1)%nat; lia).
    destruct Hfuel as (k & ->). cbn [dataio.ReadFull_loop].
    replace (0 <? n - len (io.unread r)) with true by lia.
    assert (Hmore : 0 <= n - len (io.unread r)) by lia.
    destruct (Read_lawful r' (n - len (io.unread r)) Hvalid' Hmore)
      as (err2 & r2 & -> & Hvalid2 & Hunread2 & _ & Hempty2 & _).
    rewrite Hunread' in *. rewrite take_nil, drop_nil in *. rewrite app_nil_r.
    rewrite (Hempty2 eq_refl). change (len (@nil byte)) with 0.
    cbn [io.is_EOF andb]. replace (n - len (io.unread r) - 0 =? 0) with false by lia.
    eauto.
  - cbn [io.is_EOF andb]. replace (n - len (io.unread r) =? 0) with false by lia. eauto.
Qed.

Lemma ReadByte_cons (r : T) (x : byte) (rest : list byte) :
  rvalid r -> io.unread r = x :: rest ->
  exists r', io.ReadByte r = (x, None, r') /\ rvalid r' /\ io.unread r' = rest.
Proof.
  intros Hvalid Hunread. pose proof (ReadByte_lawful r Hvalid) as Hlaw.
  rewrite Hunread in Hlaw. exact Hlaw.
Qed.

Lemma ReadByte_nil (r : T) :
  rvalid r -> io.unread r = [] -> exists b, io.ReadByte r = (b, Some EOF, r).
Proof.
  intros Hvalid Hunread. pose proof (ReadByte_lawful r Hvalid) as Hlaw.
  rewrite Hunread in Hlaw. exact Hlaw.
Qed.

Lemma ReadAll_loop_all (fuel : nat) :
  forall (r : T) (got : list byte),
    rvalid r -> (length (io.unread r) + 2 <= fuel)%nat ->
    exists r', io.ReadAll_loop fuel r got = Ok (got ++ io.unread r, None, r').
Proof.
  induction fuel as [|fuel IH]; intros r got Hvalid Hfuel; [lia|].
  cbn [io.ReadAll_loop].
  assert (H512 : 0 <= 512) by lia.
  destruct (Read_lawful r 512 Hvalid H512)
    as (err & r' & -> & Hvalid' & Hunread' & Herr & Hempty & Heof).
  destruct Herr as [-> | ->].
  - assert (Hne : io.unread r <> []) by (intros Hnil; specialize (Hempty Hnil); discriminate).
    destruct (IH r' (got ++ take (Z.to_nat 512) (io.unread r)) Hvalid') as (r2 & ->).
    + rewrite Hunread', length_drop.
      destruct (io.unread r); [congruence|]. simpl in *. lia.
    + rewrite Hunread', <- app_assoc, take_drop. eauto.
  - cbn [io.is_EOF]. specialize (Heof eq_refl). rewrite Hunread' in Heof.
    pose proof (take_drop (Z.to_nat 512) (io.unread r)) as Htd.
    rewrite Heof, app_nil_r in Htd. rewrite Htd. eauto.
Qed.

(** [ioutil.ReadAll] returns everything unread, without an error. *)
Lemma ReadAll_all (r : T) :
  rvalid r -> exists r', io.ReadAll r = Ok (io.unread r, None, r').
Proof.
  intros Hvalid. unfold io.ReadAll.
  destruct (ReadAll_loop_all (S (S (length (io.unread r)))) r [] Hvalid) as (r' & ->);
    [lia|]. eauto.
Qed.

(** [struc.Unpack] when all the fields are unread. *)
Lemma Unpack_exact (sizes : list Z) :
  forall (r : T) (fields : list (list byte)) (rest : list byte),
    rvalid r ->
    Forall2 (fun size f => len f = size) sizes fields ->
    io.unread r = concat fields ++ rest ->
    exists r', struc.Unpack r sizes = Ok (fields, None, r') /\
               rvalid r' /\ io.unread r' = rest.
Proof.
  induction sizes as [|size sizes IH]; intros r fields rest Hvalid Hsizes Hunread.
  - inversion Hsizes; subst. cbn [struc.Unpack]. eauto.
  - inversion Hsizes as [|? f ? fs Hf Hfs]; subst. cbn [struc.Unpack].
    cbn [concat] in Hunread. rewrite <- app_assoc in Hunread.
    destruct (io_ReadFull_exact r (len f) f (concat fs ++ rest) Hvalid Hunread eq_refl)
      as (r1 & -> & Hvalid1 & Hunread1).
    cbn [bind].
    destruct (IH r1 fs rest Hvalid1 Hfs Hunread1) as (r2 & -> & Hvalid2 & Hunread2).
    cbn [bind]. eauto.
Qed.

(** [struc.Unpack] when nothing is unread: [io.EOF] from the first field. *)
Lemma Unpack_at_end (r : T) (size : Z) (sizes : list Z) :
  rvalid r -> io.unread r = [] -> 0 < size ->
  exists r', struc.Unpack r (size :: sizes) = Ok ([], Some EOF, r') /\
             rvalid r' /\ io.unread r' = [].
Proof.
  intros Hvalid Hunread Hsize. cbn [struc.Unpack].
  destruct (io_ReadFull_short r size Hvalid) as (r' & -> & Hvalid' & Hunread').
  - rewrite Hunread. change (len (@nil byte)) with 0. lia.
  - rewrite Hunread. cbn [bind]. eauto.
Qed.

End LawfulReading2.

(** ** Fixed-width integers *)

Lemma len_le_encode (n : nat) (z : Z) : len (le_encode n z) = Z.of_nat n.
Proof.
  unfold len. f_equal. revert z.
  induction n as [|n IH]; intros z; simpl; [reflexivity|]. now rewrite IH.
Qed.

Lemma le_decode_range (bs : list byte) : 0 <= le_decode bs < 2 ^ (8 * len bs).
Proof.
  induction bs as [|b bs IH].
  - change (len (@nil byte)) with 0. simpl. lia.
  - cbn [le_decode]. rewrite len_cons. pose proof (byte_to_Z_range b) as Hb.
    pose proof (len_nonneg bs) as Hl.
    replace (8 * (1 + len bs)) with (8 + 8 * len bs) by lia.
    rewrite Z.pow_add_r by lia. change (2 ^ 8) with 256. nia.
Qed.

Lemma le_decode_encode (n : nat) (z : Z) :
  le_decode (le_encode n z) = z mod 2 ^ (8 * Z.of_nat n).
Proof.
  revert z. induction n as [|n IH]; intros z.
  - cbn [le_encode le_decode]. change (8 * Z.of_nat 0) with 0.
    change (2 ^ 0) with 1. now rewrite Z.mod_1_r.
  - cbn [le_encode le_decode]. rewrite byte_to_of_Z, IH.
    replace (8 * Z.of_nat (S n)) with (8 + 8 * Z.of_nat n) by lia.
    rewrite Z.pow_add_r by lia. change (2 ^ 8) with 256.
    assert (Hpos : 0 < 2 ^ (8 * Z.of_nat n)) by (apply Z.pow_pos_nonneg; lia).
    rewrite Z.rem_mul_r by lia. reflexivity.
Qed.

Lemma le_encode_decode (bs : list byte) : le_encode (length bs) (le_decode bs) = bs.
Proof.
  induction bs as [|b bs IH]; [reflexivity|].
  cbn [length le_encode le_decode].
  pose proof (byte_to_Z_range b) as Hb.
  assert (Hbyte : byte_of_Z (byte_to_Z b + 256 * le_decode bs) = b).
  { rewrite <- (byte_of_to_Z b) at 2. unfold byte_of_Z.
    replace ((byte_to_Z b + 256 * le_decode bs) mod 256) with (byte_to_Z b mod 256);
      [reflexivity|].
    replace (byte_to_Z b + 256 * le_decode bs) with (byte_to_Z b + le_decode bs * 256) by lia.
    rewrite Z.mod_add by lia. reflexivity. }
  rewrite Hbyte. f_equal.
  replace ((byte_to_Z b + 256 * le_decode bs) / 256) with (le_decode bs); [exact IH|].
  replace (byte_to_Z b + 256 * le_decode bs) with (byte_to_Z b + le_decode bs * 256) by lia.
  rewrite Z.div_add by lia. rewrite Z.div_small by lia. lia.
Qed.

Lemma le_encode_mod (n : nat) (z : Z) :
  le_encode n (z mod 2 ^ (8 * Z.of_nat n)) = le_encode n z.
Proof.
  rewrite <- le_decode_encode.
  pose proof (len_le_encode n z) as Hlen. unfold len in Hlen.
  replace n with (length (le_encode n z)) at 1 by lia.
  apply le_encode_decode.
Qed.

Lemma le_encode_signed (n : nat) (bs : list byte) :
  length bs = n -> (0 < n)%nat ->
  le_encode n (of_signed (8 * Z.of_nat n) (to_signed (8 * Z.of_nat n) (le_decode bs))) = bs.
Proof.
  intros Hlen Hn. unfold of_signed. rewrite le_encode_mod.
  unfold to_signed.
  destruct (le_decode bs <? 2 ^ (8 * Z.of_nat n - 1)).
  - subst n. apply le_encode_decode.
  - rewrite <- le_encode_mod.
    replace ((le_decode bs - 2 ^ (8 * Z.of_nat n)) mod 2 ^ (8 * Z.of_nat n))
      with (le_decode bs mod 2 ^ (8 * Z.of_nat n)).
    + rewrite le_encode_mod. subst n. apply le_encode_decode.
    + assert (Hpos : 0 < 2 ^ (8 * Z.of_nat n)) by (apply Z.pow_pos_nonneg; lia).
      replace (le_decode bs - 2 ^ (8 * Z.of_nat n))
        with (le_decode bs + (-1) * 2 ^ (8 * Z.of_nat n)) by lia.
      rewrite Z.mod_add by lia. reflexivity.
Qed.

(** ** Commands *)

Lemma byte_eqb_refl (b : byte) : Byte.eqb b b = true.
Proof. now apply Byte.byte_dec_lb. Qed.

Lemma byte_eqb_neq (a b : byte) : a <> b -> Byte.eqb a b = false.
Proof.
  intros Hne. destruct (Byte.eqb a b) eqn:E; [|reflexivity].
  now apply Byte.byte_dec_bl in E.
Qed.

Lemma le_decode_encode_small (n : nat) (z : Z) :
  0 <= z < 2 ^ (8 * Z.of_nat n) -> le_decode (le_encode n z) = z.
Proof. intros Hz. rewrite le_decode_encode. now apply Z.mod_small. Qed.

Section CommandProofs.
Context {T : Type} `{LawfulReader T}.
Import pixelpusher.

Lemma readNULLTerminatedString_reads (str : list byte) :
  forall (fuel : nat) (r : T) (acc rest : list byte),
    rvalid r ->
    Forall (fun b => b <> x00) str ->
    io.unread r = str ++ x00 :: rest ->
    (length str < fuel)%nat ->
    exists r', readNULLTerminatedString fuel r acc = Ok (acc ++ str, r') /\
               rvalid r' /\ io.unread r' = rest.
Proof.
  induction str as [|c str IH]; intros fuel r acc rest Hvalid Hstr Hunread Hfuel.
  - destruct fuel as [|fuel]; [simpl in Hfuel; lia|].
    cbn [readNULLTerminatedString].
    destruct (ReadByte_cons r x00 rest Hvalid Hunread) as (r' & -> & Hvalid' & Hunread').
    rewrite byte_eqb_refl, app_nil_r. eauto.
  - destruct fuel as [|fuel]; [simpl in Hfuel; lia|].
    cbn [readNULLTerminatedString].
    inversion Hstr as [|? ? Hc Hstr']; subst.
    destruct (ReadByte_cons r c (str ++ x00 :: rest) Hvalid Hunread)
      as (r' & -> & Hvalid' & Hunread').
    rewrite (byte_eqb_neq c x00 Hc).
    destruct (IH fuel r' (acc ++ [c]) rest Hvalid' Hstr' Hunread') as (r2 & -> & Hr2);
      [simpl in Hfuel; lia|].
    rewrite <- app_assoc. eauto.
Qed.

Lemma unpack_fields_exact (r : T) (sizes : list Z) (fields : list (list byte))
      (rest : list byte) :
  rvalid r ->
  Forall2 (fun size f => len f = size) sizes fields ->
  io.unread r = concat fields ++ rest ->
  exists r', unpack_fields r sizes = Ok (fields, r') /\ rvalid r' /\ io.unread r' = rest.
Proof.
  intros Hvalid Hsizes Hunread. unfold unpack_fields.
  destruct (Unpack_exact sizes r fields rest Hvalid Hsizes Hunread) as (r' & -> & Hr').
  cbn [bind]. eauto.
Qed.

Lemma LoadContentFrom_reads (cmd : Command) (r : T) (rest : list byte) :
  command_ok cmd -> rvalid r ->
  io.unread r = WriteContentTo cmd ++ rest ->
  exists r', LoadContentFrom (ID cmd) r = Ok (cmd, r') /\ rvalid r' /\ io.unread r' = rest.
Proof.
  intros Hcmd Hvalid Hunread. unfold LoadContentFrom.
  destruct cmd as [| p | n p | ssid key security | ns sl st co g c au ac];
    cbn [ID WriteContentTo command_ok] in *.
  - cbn. eauto.
  - cbn [Byte.eqb CommandReset CommandGlobalBrightnessSet].
    change (Byte.eqb CommandGlobalBrightnessSet CommandReset) with false. cbv iota.
    rewrite byte_eqb_refl.
    destruct (unpack_fields_exact r [2] [le_encode 2 p] rest Hvalid) as (r' & -> & Hr').
    + repeat constructor.
    + cbn [concat]. now rewrite app_nil_r.
    + cbn [bind struc.field nth]. rewrite le_decode_encode_small by exact Hcmd. eauto.
  - change (Byte.eqb CommandStripBrightnessSet CommandReset) with false.
    change (Byte.eqb CommandStripBrightnessSet CommandGlobalBrightnessSet) with false.
    cbv iota. rewrite byte_eqb_refl.
    destruct (unpack_fields_exact r [1; 2] [[n]; le_encode 2 p] rest Hvalid)
      as (r' & -> & Hr').
    + repeat constructor.
    + cbn [concat]. now rewrite app_nil_r, <- app_assoc.
    + cbn [bind struc.field nth]. rewrite le_decode_encode_small by exact Hcmd. eauto.
  - change (Byte.eqb CommandWifiConfigure CommandReset) with false.
    change (Byte.eqb CommandWifiConfigure CommandGlobalBrightnessSet) with false.
    change (Byte.eqb CommandWifiConfigure CommandStripBrightnessSet) with false.
    cbv iota. rewrite byte_eqb_refl.
    destruct Hcmd as [Hssid Hkey].
    rewrite <- !app_assoc in Hunread. cbn [app] in Hunread.
    destruct (readNULLTerminatedString_reads ssid (S (length (io.unread r))) r []
                (key ++ x00 :: security :: rest) Hvalid Hssid Hunread)
      as (r1 & -> & Hvalid1 & Hunread1).
    { rewrite Hunread, length_app. lia. }
    cbn [bind app].
    destruct (readNULLTerminatedString_reads key (S (length (io.unread r1))) r1 []
                (security :: rest) Hvalid1 Hkey Hunread1)
      as (r2 & -> & Hvalid2 & Hunread2).
    { rewrite Hunread1, length_app. lia. }
    cbn [bind app].
    destruct (ReadByte_cons r2 security rest Hvalid2 Hunread2) as (r3 & -> & Hr3).
    eauto.
  - change (Byte.eqb CommandLEDConfigure CommandReset) with false.
    change (Byte.eqb CommandLEDConfigure CommandGlobalBrightnessSet) with false.
    change (Byte.eqb CommandLEDConfigure CommandStripBrightnessSet) with false.
    change (Byte.eqb CommandLEDConfigure CommandWifiConfigure) with false.
    cbv iota. rewrite byte_eqb_refl.
    destruct (unpack_fields_exact r [4; 4; 8; 8; 2; 2; 2; 2]
                [le_encode 4 ns; le_encode 4 sl; le_encode 8 st; le_encode 8 co;
                 le_encode 2 g; le_encode 2 c; le_encode 2 au; le_encode 2 ac]
                rest Hvalid) as (r' & -> & Hr').
    + repeat constructor.
    + cbn [concat]. rewrite app_nil_r, <- !app_assoc. exact Hunread.
    + cbn [bind struc.field nth].
      rewrite !le_decode_encode_small by tauto. eauto.
Qed.

(** Decoding what [WriteCommand] wrote (with the magic prefix) returns the
    command and leaves the reader at the end of the encoding. *)
Lemma ReadCommand_WriteCommand (cmd : Command) (r : T) (rest : list byte) :
  command_ok cmd -> rvalid r ->
  io.unread r = WriteCommand cmd true ++ rest ->
  exists r', ReadCommand r true = Ok (cmd, r') /\ rvalid r' /\ io.unread r' = rest.
Proof.
  intros Hcmd Hvalid Hunread. unfold ReadCommand, WriteCommand in *.
  rewrite <- !app_assoc in Hunread.
  destruct (dataio_ReadFull_exact r (len CommandMagic) CommandMagic
              ([ID cmd] ++ WriteContentTo cmd ++ rest) Hvalid Hunread eq_refl)
    as (r1 & -> & Hvalid1 & Hunread1).
  cbn [bind]. unfold bytes_Equal. rewrite bool_decide_eq_true_2 by reflexivity.
  cbn [bind].
  destruct (ReadByte_cons r1 (ID cmd) (WriteContentTo cmd ++ rest) Hvalid1 Hunread1)
    as (r2 & -> & Hvalid2 & Hunread2).
  assert (Hknown : known_command (ID cmd) = true) by (destruct cmd; reflexivity).
  rewrite Hknown.
  destruct (LoadContentFrom_reads cmd r2 rest Hcmd Hvalid2 Hunread2) as (r3 & -> & Hr3).
  eauto.
Qed.

End CommandProofs.

Lemma remainingSlice_NewR (data : list byte) :
  byteslicereader.remainingSlice (byteslicereader.NewR data) = data.
Proof.
  unfold byteslicereader.remainingSlice, byteslicereader.NewR.
  cbn [byteslicereader.Buffer byteslicereader.pos].
  destruct data as [|b data]; [reflexivity|].
  rewrite len_cons. pose proof (len_nonneg data).
  replace (1 + len data <=? 0) with false by lia. reflexivity.
Qed.

Lemma unread_NewReader (data : list byte) : bytes.unread (bytes.NewReader data) = data.
Proof.
  unfold bytes.unread, bytes.NewReader. cbn [bytes.s bytes.i].
  destruct data as [|b data]; [reflexivity|].
  rewrite len_cons. pose proof (len_nonneg data).
  replace (1 + len data <=? 0) with false by lia. reflexivity.
Qed.

(** C9, as amended.  For every command of the five kinds whose numeric
    fields are within their types and whose SSID and key hold no NUL byte,
    decoding its encoding (magic prefix included) yields the command itself,
    with nothing left unread, through either reader the code uses; hence
    re-encoding what was decoded reproduces the byte string. *)
Theorem Command_round_trip (cmd : pixelpusher.Command) :
  command_ok cmd ->
  (exists r',
     pixelpusher.ReadCommand (byteslicereader.NewR (pixelpusher.WriteCommand cmd true)) true
       = Ok (cmd, r') /\
     byteslicereader.remainingSlice r' = []) /\
  (exists r',
     pixelpusher.ReadCommand (bytes.NewReader (pixelpusher.WriteCommand cmd true)) true
       = Ok (cmd, r') /\
     bytes.unread r' = []) /\
  (forall decoded r',
     pixelpusher.ReadCommand (byteslicereader.NewR (pixelpusher.WriteCommand cmd true)) true
       = Ok (decoded, r') ->
     decoded = cmd /\
     pixelpusher.WriteCommand decoded true = pixelpusher.WriteCommand cmd true).
Proof.
  intros Hcmd.
  destruct (ReadCommand_WriteCommand cmd
              (byteslicereader.NewR (pixelpusher.WriteCommand cmd true)) [] Hcmd)
    as (r1 & Hread1 & _ & Hrest1).
  { unfold rvalid. cbn. unfold byteslicereader.valid. cbn. lia. }
  { cbn [io.unread byteslicereader_Reader]. now rewrite remainingSlice_NewR, app_nil_r. }
  destruct (ReadCommand_WriteCommand cmd
              (bytes.NewReader (pixelpusher.WriteCommand cmd true)) [] Hcmd)
    as (r2 & Hread2 & _ & Hrest2).
  { unfold rvalid. cbn. unfold bytes.valid. cbn. lia. }
  { cbn [io.unread bytes_Reader]. now rewrite unread_NewReader, app_nil_r. }
  split; [eauto|]. split; [eauto|].
  intros decoded r' Hread. rewrite Hread1 in Hread. injection Hread as <- <-.
  split; reflexivity.
Qed.

Lemma Command_round_trip_witness :
  exists r',
    pixelpusher.ReadCommand
      (byteslicereader.NewR
         (pixelpusher.WriteCommand
            (pixelpusher.WiFiConfigureCommand [x6f; x68; x61; x69] [x6b; x65; x79] x02) true))
      true
    = Ok (pixelpusher.WiFiConfigureCommand [x6f; x68; x61; x69] [x6b; x65; x79] x02, r') /\
    byteslicereader.remainingSlice r' = [].
Proof.
  destruct (Command_round_trip
              (pixelpusher.WiFiConfigureCommand [x6f; x68; x61; x69] [x6b; x65; x79] x02))
    as (Hread & _ & _).
  - cbn. split; repeat constructor; discriminate.
  - exact Hread.
Defined.

(** C9 as it is worded does not hold for every command: an SSID with a NUL
    byte inside is cut at that byte by the decoder, the rest of it is read
    as the key, and re-encoding the decoded command gives a shorter byte
    string. *)
Lemma Command_round_trip_fails_on_NUL :
  let cmd := pixelpusher.WiFiConfigureCommand [x61; x00; x62] [] x00 in
  let decoded := pixelpusher.WiFiConfigureCommand [x61] [x62] x00 in
  (exists r',
     pixelpusher.ReadCommand (byteslicereader.NewR (pixelpusher.WriteCommand cmd true)) true
       = Ok (decoded, r')) /\
  decoded <> cmd /\
  pixelpusher.WriteCommand decoded true <> pixelpusher.WriteCommand cmd true.
Proof.
  cbv zeta. split; [eexists; vm_compute; reflexivity|].
  split; [discriminate|]. vm_compute. discriminate.
Qed.

(** ** packet.PacketReader.ReadPacket *)

Lemma remainingSlice_advance (r : byteslicereader.R) (n : Z) :
  byteslicereader.valid r -> 0 <= n <= byteslicereader.Remaining r ->
  byteslicereader.valid (byteslicereader.set_pos r (byteslicereader.pos r + n)) /\
  byteslicereader.remainingSlice (byteslicereader.set_pos r (byteslicereader.pos r + n))
    = drop (Z.to_nat n) (byteslicereader.remainingSlice r).
Proof.
  intros Hvalid Hn.
  assert (Hn0 : 0 <= n) by lia.
  destruct (byteslicereader_Read_lawful r n Hvalid Hn0)
    as (err & r' & Hread & Hvalid' & Hunread' & _).
  cbn [io.Read io.unread byteslicereader_Reader] in *.
  unfold byteslicereader.Read in Hread.
  rewrite len_take in Hread by (fold (byteslicereader.Remaining r); lia).
  injection Hread as _ <-. tauto.
Qed.

Lemma index_lookup (s : list byte) (i : Z) (b : byte) :
  0 <= i -> s !! Z.to_nat i = Some b -> index s i = Ok b.
Proof.
  intros Hi Hlk. unfold index.
  pose proof (lookup_lt_Some _ _ _ Hlk) as Hlt. unfold len.
  replace ((i <? 0) || (Z.of_nat (length s) <=? i)) with false by lia.
  now rewrite Hlk.
Qed.

Section ReadPacketProofs.
Import pixelpusher packet.
Variable pr : PacketReader.t.
Hypothesis Hpps : 0 <= PacketReader.PixelsPerStrip pr.
Hypothesis Hfits : PacketReader.PixelsPerStrip pr * 9 < 2 ^ 63.

Lemma strip_size_fits (pb : pixel.Buffer) :
  wrap64 (PacketReader.PixelsPerStrip pr * pixel.pixelSize pb)
    = PacketReader.PixelsPerStrip pr * pixel.pixelSize pb /\
  0 <= PacketReader.PixelsPerStrip pr * pixel.pixelSize pb.
Proof.
  pose proof (pixelSize_pos pb). split; [apply wrap64_small|]; nia.
Qed.

Lemma ReadFrom_enough (pb : pixel.Buffer) (r : byteslicereader.R) (bs rest : list byte) :
  byteslicereader.valid r ->
  byteslicereader.remainingSlice r = bs ++ rest ->
  len bs = PacketReader.PixelsPerStrip pr * pixel.pixelSize pb ->
  exists r',
    pixel.ReadFrom pb r (PacketReader.PixelsPerStrip pr)
      = Ok (pixel.mkBuffer (pixel.Layout pb) bs, r') /\
    byteslicereader.valid r' /\ byteslicereader.remainingSlice r' = rest.
Proof.
  intros Hvalid Hrem Hlen.
  destruct (strip_size_fits pb) as [Hwrap Hsize].
  unfold pixel.ReadFrom. rewrite Hwrap, Next_cases, <- Hlen.
  pose proof (len_nonneg bs) as Hb. pose proof (len_nonneg rest) as Hr.
  replace (len bs <? 0) with false by lia.
  assert (Hremaining : byteslicereader.Remaining r = len bs + len rest)
    by (unfold byteslicereader.Remaining; rewrite Hrem, len_app; lia).
  assert (Htake : take (Z.to_nat (len bs)) (byteslicereader.remainingSlice r) = bs)
    by (rewrite Hrem, to_nat_len; apply take_app_length).
  assert (Hdrop : drop (Z.to_nat (len bs)) (byteslicereader.remainingSlice r) = rest)
    by (rewrite Hrem, to_nat_len; apply drop_app_length).
  assert (Hin : 0 <= len bs <= byteslicereader.Remaining r) by lia.
  destruct (remainingSlice_advance r (len bs) Hvalid Hin) as [Hvalid' Hrem'].
  rewrite Hdrop in Hrem'.
  destruct (len bs <? byteslicereader.Remaining r) eqn:E.
  - rewrite Htake. cbn [bind]. eauto.
  - assert (Hrest : rest = []).
    { destruct rest as [|b rest']; [reflexivity|].
      rewrite len_cons in Hremaining. pose proof (len_nonneg rest'). lia. }
    assert (Hall : byteslicereader.remainingSlice r = bs) by (rewrite Hrem, Hrest; apply app_nil_r).
    rewrite Hall. cbn [bind]. rewrite Z.eqb_refl.
    replace (byteslicereader.Remaining r) with (len bs) by lia. eauto.
Qed.

Lemma ReadFrom_short (pb : pixel.Buffer) (r : byteslicereader.R) :
  byteslicereader.Remaining r < PacketReader.PixelsPerStrip pr * pixel.pixelSize pb ->
  pixel.ReadFrom pb r (PacketReader.PixelsPerStrip pr)
    = Err (Wrapped "could not read pixel buffer" EOF).
Proof.
  intros Hshort. destruct (strip_size_fits pb) as [Hwrap _].
  apply ReadFrom_short_of_remaining. now rewrite Hwrap.
Qed.

End ReadPacketProofs.

Section ReadPacketLoop.
Import pixelpusher packet.
Variable pr : PacketReader.t.
Hypothesis Hpps : 0 <= PacketReader.PixelsPerStrip pr.
Hypothesis Hfits : PacketReader.PixelsPerStrip pr * 9 < 2 ^ 63.

Lemma R_ReadByte_cons (r : byteslicereader.R) (x : byte) (rest : list byte) :
  byteslicereader.valid r -> byteslicereader.remainingSlice r = x :: rest ->
  exists r', byteslicereader.ReadByte r = (x, None, r') /\
             byteslicereader.valid r' /\ byteslicereader.remainingSlice r' = rest.
Proof. intros Hvalid Hrem. exact (ReadByte_cons (T := byteslicereader.R) r x rest Hvalid Hrem). Qed.

Lemma R_ReadByte_nil (r : byteslicereader.R) :
  byteslicereader.valid r -> byteslicereader.remainingSlice r = [] ->
  exists b, byteslicereader.ReadByte r = (b, Some EOF, r).
Proof. intros Hvalid Hrem. exact (ReadByte_nil (T := byteslicereader.R) r Hvalid Hrem). Qed.

Lemma readStripStates_prefix (strips : list StripState) :
  forall (r : byteslicereader.R) (acc : list StripState) (tail : list byte),
    byteslicereader.valid r ->
    Forall (strip_ok pr) strips ->
    byteslicereader.remainingSlice r = wire_strips strips ++ tail ->
    exists r',
      (forall fuel : nat,
         readStripStates (length strips + fuel) pr r acc
           = readStripStates fuel pr r' (acc ++ strips)) /\
      byteslicereader.valid r' /\ byteslicereader.remainingSlice r' = tail.
Proof.
  induction strips as [|ss strips IH]; intros r acc tail Hvalid Hok Hrem.
  - exists r. rewrite app_nil_r. cbn in Hrem. eauto.
  - inversion Hok as [|? ? (flags & Hflags & Hlayout & Hlen) Hok']; subst.
    unfold wire_strips in Hrem. cbn [map concat] in Hrem. fold (wire_strips strips) in Hrem.
    unfold wire_strip in Hrem. rewrite <- app_assoc in Hrem. cbn [app] in Hrem.
    destruct (R_ReadByte_cons r _ _ Hvalid Hrem) as (r1 & Hbyte & Hvalid1 & Hrem1).
    set (pb := {| pixel.Layout := PixelBufferLayout flags; pixel.buf := [] |}).
    assert (Hsize : pixel.pixelSize pb = pixel.pixelSize (Pixels ss))
      by (unfold pixel.pixelSize; cbn [pixel.Layout pb]; now rewrite Hlayout).
    destruct (ReadFrom_enough pr Hpps Hfits pb r1 (pixel.Bytes (Pixels ss))
                              (wire_strips strips ++ tail) Hvalid1 Hrem1)
      as (r2 & Hfrom & Hvalid2 & Hrem2).
    { rewrite Hsize. exact Hlen. }
    destruct (IH r2 (acc ++ [ss]) tail Hvalid2 Hok' Hrem2) as (r' & Hrun & Hr').
    exists r'. split; [|exact Hr'].
    intros fuel. cbn [length Nat.add readStripStates]. rewrite Hbyte.
    pose proof (lookup_lt_Some _ _ _ Hflags) as Hlt.
    pose proof (byte_to_Z_range (StripNumber ss)) as Hn.
    replace (len (PacketReader.StripFlags pr) <=? byte_to_Z (StripNumber ss)) with false
      by (unfold len; lia).
    rewrite (index_lookup _ _ flags) by (try lia; exact Hflags).
    cbn [bind Pixels]. fold pb. rewrite Hfrom. cbn [bind].
    replace {| StripNumber := StripNumber ss;
               Pixels := {| pixel.Layout := pixel.Layout pb;
                            pixel.buf := pixel.Bytes (Pixels ss) |} |} with ss.
    + rewrite Hrun, <- app_assoc. reflexivity.
    + destruct ss as [n [layout b]]. cbn in *. now rewrite Hlayout.
Qed.

Lemma readStripStates_at_end (fuel : nat) (r : byteslicereader.R) (acc : list StripState) :
  byteslicereader.valid r -> byteslicereader.remainingSlice r = [] ->
  readStripStates (S fuel) pr r acc = Ok acc.
Proof.
  intros Hvalid Hrem. cbn [readStripStates].
  destruct (R_ReadByte_nil r Hvalid Hrem) as (b & ->). reflexivity.
Qed.

Lemma readStripStates_out_of_range (fuel : nat) (r : byteslicereader.R)
      (acc : list StripState) (n : byte) (rest : list byte) :
  byteslicereader.valid r -> byteslicereader.remainingSlice r = n :: rest ->
  len (PacketReader.StripFlags pr) <= byte_to_Z n ->
  readStripStates (S fuel) pr r acc
    = Err (ErrStripIndex (byte_to_Z n) (len (PacketReader.StripFlags pr) - 1)).
Proof.
  intros Hvalid Hrem Hrange. cbn [readStripStates].
  destruct (R_ReadByte_cons r n rest Hvalid Hrem) as (r1 & -> & _).
  replace (len (PacketReader.StripFlags pr) <=? byte_to_Z n) with true by lia.
  reflexivity.
Qed.

Lemma readStripStates_mid_strip (fuel : nat) (r : byteslicereader.R)
      (acc : list StripState) (n : byte) (flags : StripFlags) (rest : list byte) :
  byteslicereader.valid r -> byteslicereader.remainingSlice r = n :: rest ->
  PacketReader.StripFlags pr !! Z.to_nat (byte_to_Z n) = Some flags ->
  len rest < PacketReader.PixelsPerStrip pr
             * pixel.pixelSize (pixel.mkBuffer (PixelBufferLayout flags) []) ->
  readStripStates (S fuel) pr r acc = Err (Wrapped "could not read pixel buffer" EOF).
Proof.
  intros Hvalid Hrem Hflags Hshort. cbn [readStripStates].
  destruct (R_ReadByte_cons r n rest Hvalid Hrem) as (r1 & -> & Hvalid1 & Hrem1).
  pose proof (lookup_lt_Some _ _ _ Hflags) as Hlt.
  pose proof (byte_to_Z_range n) as Hn.
  replace (len (PacketReader.StripFlags pr) <=? byte_to_Z n) with false
    by (unfold len; lia).
  rewrite (index_lookup _ _ flags) by (try lia; exact Hflags).
  cbn [bind Pixels].
  rewrite (ReadFrom_short pr Hpps Hfits); [reflexivity|].
  unfold byteslicereader.Remaining. rewrite Hrem1. exact Hshort.
Qed.

Lemma length_wire_strips (strips : list StripState) :
  (length strips <= length (wire_strips strips))%nat.
Proof.
  induction strips as [|ss strips IH]; [simpl; lia|].
  unfold wire_strips in *. cbn [map concat length]. rewrite length_app.
  unfold wire_strip at 1. cbn [length]. lia.
Qed.

Lemma Peek_takes (r : byteslicereader.R) (n : Z) :
  0 <= n ->
  byteslicereader.Peek r n = Ok (take (Z.to_nat n) (byteslicereader.remainingSlice r)).
Proof.
  intros Hn. unfold byteslicereader.Peek, slice_to, copy_bytes.
  set (v := byteslicereader.remainingSlice r).
  destruct (n <? len v) eqn:E.
  - replace ((n <? 0) || (len v <? n)) with false by lia. cbn [bind app].
    destruct (byteslicereader.AlwaysCopy r); reflexivity.
  - cbn [bind app]. rewrite take_ge by (unfold len in E; lia).
    destruct (byteslicereader.AlwaysCopy r); reflexivity.
Qed.

(** [ReadPacket] on a datagram whose body does not start with the command
    magic: the ID is decoded and the strip loop runs on the body. *)
Lemma ReadPacket_pixels (idBytes body : list byte) (pkt : Packet) :
  len idBytes = 4 ->
  take 16 body <> CommandMagic ->
  exists r fuel,
    ReadPacket pr (byteslicereader.NewR (idBytes ++ body)) pkt
      = (do states <- readStripStates (S fuel) pr r [];
         Ok (mkPacket (be_decode idBytes) (Command pkt) states)) /\
    fuel = length body /\
    byteslicereader.valid r /\ byteslicereader.remainingSlice r = body.
Proof.
  intros Hid Hmagic. unfold ReadPacket.
  destruct (io_ReadFull_exact (T := byteslicereader.R)
              (byteslicereader.NewR (idBytes ++ body)) 4 idBytes body)
    as (r1 & -> & Hvalid1 & Hrem1).
  { cbn. unfold byteslicereader.valid. cbn. lia. }
  { cbn [io.unread byteslicereader_Reader]. apply remainingSlice_NewR. }
  { exact Hid. }
  cbn [io.unread byteslicereader_Reader rvalid byteslicereader_lawful] in *.
  cbn [bind]. rewrite Peek_takes by (vm_compute; congruence).
  rewrite Hrem1. cbn [bind].
  change (Z.to_nat (len CommandMagic)) with 16%nat.
  unfold bytes_Equal. rewrite bool_decide_eq_false_2 by exact Hmagic.
  exists r1, (length body). split; [|tauto].
  unfold byteslicereader.Remaining. rewrite Hrem1, to_nat_len. reflexivity.
Qed.

End ReadPacketLoop.

(** C4.  A datagram that carries, after its four ID bytes, strip states the
    reader's configuration describes, and whose body does not begin with
    the command magic:
    - parses to the packet with the big-endian ID and exactly those strips
      when the data ends at a strip boundary (with no strip at all when it
      ends right after the ID);
    - fails with the strip-index error when the next strip-number byte is
      greater than or equal to the number of strip flags;
    - fails when the data ends inside the pixel bytes of the next strip. *)
Theorem ReadPacket_pixel_datagram (pr : packet.PacketReader.t) (idBytes : list byte)
        (strips : list pixelpusher.StripState) (pkt : packet.Packet) :
  len idBytes = 4 ->
  0 <= packet.PacketReader.PixelsPerStrip pr ->
  packet.PacketReader.PixelsPerStrip pr * 9 < 2 ^ 63 ->
  Forall (strip_ok pr) strips ->
  (take 16 (wire_strips strips) <> pixelpusher.CommandMagic ->
   packet.ReadPacket pr (byteslicereader.NewR (idBytes ++ wire_strips strips)) pkt
     = Ok (packet.mkPacket (be_decode idBytes) (packet.Command pkt) strips)) /\
  (forall (n : byte) (rest : list byte),
     len (packet.PacketReader.StripFlags pr) <= byte_to_Z n ->
     take 16 (wire_strips strips ++ n :: rest) <> pixelpusher.CommandMagic ->
     packet.ReadPacket pr
       (byteslicereader.NewR (idBytes ++ wire_strips strips ++ n :: rest)) pkt
       = Err (ErrStripIndex (byte_to_Z n) (len (packet.PacketReader.StripFlags pr) - 1))) /\
  (forall (n : byte) (flags : pixelpusher.StripFlags) (rest : list byte),
     packet.PacketReader.StripFlags pr !! Z.to_nat (byte_to_Z n) = Some flags ->
     len rest < packet.PacketReader.PixelsPerStrip pr
                * pixel.pixelSize (pixel.mkBuffer (pixelpusher.PixelBufferLayout flags) []) ->
     take 16 (wire_strips strips ++ n :: rest) <> pixelpusher.CommandMagic ->
     packet.ReadPacket pr
       (byteslicereader.NewR (idBytes ++ wire_strips strips ++ n :: rest)) pkt
       = Err (Wrapped "could not read pixel buffer" EOF)).
Proof.
  intros Hid Hpps Hfits Hok.
  assert (Hrun : forall (tail : list byte) (r : byteslicereader.R),
             byteslicereader.valid r ->
             byteslicereader.remainingSlice r = wire_strips strips ++ tail ->
             exists r',
               packet.readStripStates (S (length (wire_strips strips ++ tail))) pr r []
                 = packet.readStripStates
                     (S (length (wire_strips strips ++ tail) - length strips)) pr r' strips /\
               byteslicereader.valid r' /\ byteslicereader.remainingSlice r' = tail).
  { intros tail r Hvalid Hrem.
    destruct (readStripStates_prefix pr Hpps Hfits strips r [] tail Hvalid Hok Hrem)
      as (r' & Hprefix & Hr').
    exists r'. split; [|exact Hr'].
    pose proof (length_wire_strips strips) as Hlen.
    specialize (Hprefix (S (length (wire_strips strips ++ tail) - length strips))).
    cbn [app] in Hprefix. rewrite <- Hprefix.
    f_equal. rewrite length_app. lia. }
  split; [|split].
  - intros Hmagic.
    destruct (ReadPacket_pixels pr idBytes (wire_strips strips) pkt Hid Hmagic)
      as (r & fuel & -> & -> & Hvalid & Hrem).
    rewrite <- (app_nil_r (wire_strips strips)) in Hrem.
    destruct (Hrun [] r Hvalid Hrem) as (r' & Hloop & Hvalid' & Hrem').
    rewrite app_nil_r in Hloop. rewrite Hloop.
    rewrite (readStripStates_at_end pr _ r' strips Hvalid' Hrem'). reflexivity.
  - intros n rest Hrange Hmagic.
    destruct (ReadPacket_pixels pr idBytes (wire_strips strips ++ n :: rest) pkt Hid Hmagic)
      as (r & fuel & -> & -> & Hvalid & Hrem).
    destruct (Hrun (n :: rest) r Hvalid Hrem) as (r' & -> & Hvalid' & Hrem').
    rewrite (readStripStates_out_of_range pr _ r' strips n rest Hvalid' Hrem' Hrange).
    reflexivity.
  - intros n flags rest Hflags Hshort Hmagic.
    destruct (ReadPacket_pixels pr idBytes (wire_strips strips ++ n :: rest) pkt Hid Hmagic)
      as (r & fuel & -> & -> & Hvalid & Hrem).
    destruct (Hrun (n :: rest) r Hvalid Hrem) as (r' & -> & Hvalid' & Hrem').
    rewrite (readStripStates_mid_strip pr Hpps Hfits _ r' strips n flags rest
                                       Hvalid' Hrem' Hflags Hshort).
    reflexivity.
Qed.

Lemma ReadPacket_pixel_datagram_witness :
  packet.ReadPacket example_reader
    (byteslicereader.NewR ([xaa; xbb; xcc; xdd] ++ wire_strips [example_rgbow_strip]))
    (packet.mkPacket 0 None [])
  = Ok (packet.mkPacket 2864434397 None [example_rgbow_strip]) /\
  packet.ReadPacket example_reader
    (byteslicereader.NewR ([xaa; xbb; xcc; xdd] ++ wire_strips [example_rgbow_strip]
                           ++ [x02; x00]))
    (packet.mkPacket 0 None [])
  = Err (ErrStripIndex 2 1) /\
  packet.ReadPacket example_reader
    (byteslicereader.NewR ([xaa; xbb; xcc; xdd] ++ wire_strips [example_rgbow_strip]
                           ++ [x00; x01; x02; x03; x04; x05]))
    (packet.mkPacket 0 None [])
  = Err (Wrapped "could not read pixel buffer" EOF).
Proof.
  destruct (ReadPacket_pixel_datagram example_reader [xaa; xbb; xcc; xdd]
                                      [example_rgbow_strip] (packet.mkPacket 0 None []))
    as (Hclean & Hrange & Hmid).
  - reflexivity.
  - vm_compute. congruence.
  - reflexivity.
  - constructor; [|constructor]. exists x01. repeat split.
  - split; [|split].
    + apply Hclean. vm_compute. congruence.
    + apply (Hrange x02 [x00]); vm_compute; congruence.
    + apply (Hmid x00 x00 [x01; x02; x03; x04; x05]); [reflexivity | reflexivity |].
      vm_compute. congruence.
Defined.

(** ** device.Registry and the Router's choice *)

Section RegistryProofs.
Import device.
Variable W : World.

Lemma GetUniqueOrdinal_Some (reg : Registry) (o : Ordinal) (d : D) :
  GetUniqueOrdinal W reg o = Some d <-> uniquely_registered W reg o d.
Proof.
  unfold GetUniqueOrdinal, uniquely_registered.
  set (emap := default ∅ (ordinalMap reg !! o)). split.
  - destruct (bool_decide (size emap = 1%nat)) eqn:Esize; [|discriminate].
    apply bool_decide_eq_true_1 in Esize.
    apply size_1_elem_of in Esize as (e & He). apply leibniz_equiv in He.
    rewrite He, elements_singleton.
    destruct (entry_device reg e) as [d'|] eqn:Edev; [|discriminate].
    destruct (IsDone W d') eqn:Edone; [discriminate|].
    intros [= <-]. exists e. auto.
  - intros (e & He & Hdev & Hdone). subst emap.
    rewrite He, size_singleton, bool_decide_eq_true_2, elements_singleton by reflexivity.
    now rewrite Hdev, Hdone.
Qed.

Lemma Get_Some (reg : Registry) (id : string) (d : D) :
  Get W reg id = Some d <-> registered_under W reg id d.
Proof.
  unfold Get, registered_under. split.
  - destruct (devices reg !! id) as [e|]; [|discriminate].
    destruct (entry_device reg e) as [d'|] eqn:Edev; [|discriminate].
    destruct (IsDone W d') eqn:Edone; [discriminate|].
    intros [= <-]. exists e. auto.
  - intros (e & He & Hdev & Hdone). now rewrite He, Hdev, Hdone.
Qed.

Lemma GetUniqueOrdinal_shared (reg : Registry) (o : Ordinal) (e1 e2 : entryPtr) :
  e1 <> e2 ->
  e1 ∈ default ∅ (ordinalMap reg !! o) ->
  e2 ∈ default ∅ (ordinalMap reg !! o) ->
  GetUniqueOrdinal W reg o = None.
Proof.
  intros Hne H1 H2. unfold GetUniqueOrdinal.
  set (emap := default ∅ (ordinalMap reg !! o)) in *.
  rewrite bool_decide_eq_false_2; [reflexivity|].
  intros Hsize. apply size_1_elem_of in Hsize as (e & He).
  rewrite He in H1, H2. apply elem_of_singleton in H1, H2. congruence.
Qed.

Lemma entry_device_update_entry (reg : Registry) (e e' : entryPtr)
      (f : registryEntry -> registryEntry) :
  (forall ent, device (f ent) = device ent) ->
  entry_device (update_entry reg e f) e' = entry_device reg e'.
Proof.
  intros Hf. unfold entry_device, update_entry. cbn [heap].
  destruct (decide (e = e')) as [->|Hne].
  - rewrite lookup_alter_eq. destruct (heap reg !! e'); cbn; [now rewrite Hf|reflexivity].
  - now rewrite lookup_alter_ne.
Qed.

Lemma unregisterEntry_ordinalMap (reg : Registry) (e : entryPtr) (ent : registryEntry) :
  heap reg !! e = Some ent ->
  devices reg !! deviceID ent = Some e ->
  ordinalMap (unregisterEntry reg e)
    = remove_from (ordinalMap reg) (registeredOrdinal ent) e /\
  forall e', entry_device (unregisterEntry reg e) e' = entry_device reg e'.
Proof.
  intros Hheap Hdev. unfold unregisterEntry, unregisterEntryLocked.
  rewrite Hheap, decide_True by exact Hdev.
  unfold removeFromGroupMapLocked. rewrite Hheap.
  unfold removeFromOrdinalMapLocked, update_entry. cbn [heap ordinalMap groupMap devices].
  rewrite lookup_alter_eq, Hheap. cbn [fmap option_fmap option_map].
  cbn [heap ordinalMap groupMap devices registeredOrdinal].
  split; [reflexivity|].
  intros e'. unfold entry_device. cbn [heap].
  destruct (decide (e = e')) as [<-|Hne].
  - rewrite !lookup_alter_eq, Hheap. reflexivity.
  - rewrite !lookup_alter_ne by exact Hne. reflexivity.
Qed.

End RegistryProofs.

(** C8, as amended.  [Route] chooses, in this order: the device of the
    ordinal when the ordinal is valid and its entry set holds exactly one
    entry whose device is not done; otherwise the device registered under
    the ID when it is not done; otherwise nothing, and the call returns
    [ErrNoRoute].  When two entries share an ordinal [GetUniqueOrdinal]
    returns none for it, and once one of the two is unregistered it returns
    the survivor (if that one is not done). *)
Theorem Route_target_selection (W : device.World) (deliver : device.D -> option error)
        (reg : device.Registry) (ordinal : device.Ordinal) (id : string) :
  (forall d,
     device.IsValid ordinal = true ->
     uniquely_registered W reg ordinal d ->
     device.Route_target W reg ordinal id = Some d /\
     device.Route W deliver reg ordinal id = deliver d) /\
  (forall d,
     ~ (device.IsValid ordinal = true /\ exists d', uniquely_registered W reg ordinal d') ->
     registered_under W reg id d ->
     device.Route_target W reg ordinal id = Some d /\
     device.Route W deliver reg ordinal id = deliver d) /\
  (~ (device.IsValid ordinal = true /\ exists d', uniquely_registered W reg ordinal d') ->
   ~ (exists d, registered_under W reg id d) ->
   device.Route_target W reg ordinal id = None /\
   device.Route W deliver reg ordinal id = Some ErrNoRoute) /\
  (forall e1 e2,
     e1 <> e2 ->
     e1 ∈ default ∅ (device.ordinalMap reg !! ordinal) ->
     e2 ∈ default ∅ (device.ordinalMap reg !! ordinal) ->
     device.GetUniqueOrdinal W reg ordinal = None) /\
  (forall e1 e2 ent1 d2,
     e1 <> e2 ->
     default ∅ (device.ordinalMap reg !! ordinal) = {[e1; e2]} ->
     device.heap reg !! e1 = Some ent1 ->
     device.registeredOrdinal ent1 = ordinal ->
     device.devices reg !! device.deviceID ent1 = Some e1 ->
     device.entry_device reg e2 = Some d2 ->
     device.IsDone W d2 = false ->
     device.GetUniqueOrdinal W (device.unregisterEntry reg e1) ordinal = Some d2).
Proof.
  assert (Hfirst : forall d, device.IsValid ordinal = true ->
                             uniquely_registered W reg ordinal d ->
                             device.Route_target W reg ordinal id = Some d).
  { intros d Hvalid Huniq. unfold device.Route_target. rewrite Hvalid.
    apply GetUniqueOrdinal_Some in Huniq. now rewrite Huniq. }
  assert (Hsecond : ~ (device.IsValid ordinal = true
                       /\ exists d', uniquely_registered W reg ordinal d') ->
                    device.Route_target W reg ordinal id = device.Get W reg id).
  { intros Hnot. unfold device.Route_target.
    destruct (device.IsValid ordinal) eqn:Evalid; [|reflexivity].
    destruct (device.GetUniqueOrdinal W reg ordinal) as [d'|] eqn:Euniq; [|reflexivity].
    exfalso. apply Hnot. split; [reflexivity|]. exists d'.
    now apply GetUniqueOrdinal_Some. }
  split; [|split; [|split; [|split]]].
  - intros d Hvalid Huniq. unfold device.Route.
    rewrite (Hfirst d Hvalid Huniq). split; reflexivity.
  - intros d Hnot Hid. unfold device.Route. rewrite (Hsecond Hnot).
    apply Get_Some in Hid. rewrite Hid. split; reflexivity.
  - intros Hnot Hnone. unfold device.Route. rewrite (Hsecond Hnot).
    destruct (device.Get W reg id) as [d|] eqn:Eget; [|split; reflexivity].
    exfalso. apply Hnone. exists d. now apply Get_Some.
  - intros e1 e2. apply GetUniqueOrdinal_shared.
  - intros e1 e2 ent1 d2 Hne Hboth Hheap Hreg Hdev He2 Hlive.
    apply GetUniqueOrdinal_Some.
    destruct (unregisterEntry_ordinalMap reg e1 ent1 Hheap Hdev) as [Hmap Hentries].
    exists e2. rewrite Hmap, Hreg, Hentries. split; [|split; assumption].
    unfold device.remove_from. rewrite Hboth.
    assert (Hrest : ({[e1; e2]} : gset device.entryPtr) ∖ {[e1]} = {[e2]}).
    { apply set_eq. intros x. rewrite elem_of_difference, elem_of_union, !elem_of_singleton.
      split; [intros [[-> | ->] Hx]; congruence | intros ->; auto]. }
    rewrite Hrest.
    rewrite decide_False by (intros Hempty; set_solver).
    now rewrite lookup_insert_eq.
Qed.

Lemma registry_two_devices_maps :
  default ∅ (device.ordinalMap registry_two_devices !! device.mkOrdinal 5 10)
    = {[0%nat; 1%nat]} /\
  device.heap registry_two_devices !! 0%nat
    = Some (device.mkEntry 0%nat "foo" 5 (device.mkOrdinal 5 10)) /\
  device.devices registry_two_devices !! "foo" = Some 0%nat /\
  device.entry_device registry_two_devices 0%nat = Some 0%nat /\
  device.entry_device registry_two_devices 1%nat = Some 1%nat.
Proof. repeat split; vm_compute; reflexivity. Qed.

Lemma Route_target_selection_witness :
  device.GetUniqueOrdinal world_two_devices registry_two_devices (device.mkOrdinal 5 10)
    = None /\
  device.GetUniqueOrdinal world_two_devices
    (device.unregisterEntry registry_two_devices 0%nat) (device.mkOrdinal 5 10)
    = Some 1%nat.
Proof.
  destruct registry_two_devices_maps as (Hmap & Hheap & Hdev & He0 & He1).
  destruct (Route_target_selection world_two_devices (fun _ => None) registry_two_devices
                                   (device.mkOrdinal 5 10) "foo")
    as (_ & _ & _ & Hshared & Hsurvivor).
  split.
  - apply (Hshared 0%nat 1%nat); [discriminate | rewrite Hmap; set_solver..].
  - apply (Hsurvivor 0%nat 1%nat _ 1%nat ltac:(discriminate) Hmap Hheap eq_refl Hdev He1).
    reflexivity.
Defined.

(** C8 as it is worded does not hold while a done device is still
    registered: with "foo" done but not yet unregistered, "bar" is the one
    device registered with the ordinal that is not done, yet the ordinal's
    entry set still holds two entries, so the ordinal selects nothing; a
    packet for that ordinal with an unknown ID gets [ErrNoRoute], and with
    the ID "bar" it reaches "bar" only through the ID. *)
Lemma Route_skips_sole_live_device :
  let o := device.mkOrdinal 5 10 in
  device.IsValid o = true /\
  sole_live_device world_foo_done registry_two_devices o 1%nat /\
  device.GetUniqueOrdinal world_foo_done registry_two_devices o = None /\
  device.Route_target world_foo_done registry_two_devices o "nonexist" = None /\
  device.Route world_foo_done (fun _ => None) registry_two_devices o "nonexist"
    = Some ErrNoRoute.
Proof.
  cbv zeta. destruct registry_two_devices_maps as (Hmap & _ & _ & He0 & He1).
  split; [reflexivity|]. split; [|repeat split; vm_compute; reflexivity].
  intros d'. rewrite Hmap. split.
  - intros (e & He & Hdev & Hlive).
    apply elem_of_union in He as [He | He]; apply elem_of_singleton in He; subst e.
    + rewrite He0 in Hdev. injection Hdev as <-. discriminate Hlive.
    + rewrite He1 in Hdev. now injection Hdev as <-.
  - intros ->. exists 1%nat. split; [set_solver|]. split; [exact He1 | reflexivity].
Qed.

(** ** Discovery: ReadDevice and Device.Write *)

Lemma le_encode_decode_len (n : nat) (bs : list byte) :
  length bs = n -> le_encode n (le_decode bs) = bs.
Proof. intros <-. apply le_encode_decode. Qed.

Lemma le_encode_signed32 (bs : list byte) :
  length bs = 4%nat -> le_encode 4 (of_signed 32 (to_signed 32 (le_decode bs))) = bs.
Proof. intros Hlen. apply (le_encode_signed 4 bs Hlen). lia. Qed.

Lemma le_encode_signed16 (bs : list byte) :
  length bs = 2%nat -> le_encode 2 (of_signed 16 (to_signed 16 (le_decode bs))) = bs.
Proof. intros Hlen. apply (le_encode_signed 2 bs Hlen). lia. Qed.

(** The loop [for i := range d.StripFlags { d.StripFlags[i] = stripFlags[i] }]
    copies the first [StripsAttached] bytes read. *)
Lemma imap_nth_take (n : nat) :
  forall l : list byte,
    (n <= length l)%nat ->
    imap (fun i _ => nth i l x00) (repeat x00 n) = take n l.
Proof.
  induction n as [|n IH]; intros l Hn; [reflexivity|].
  destruct l as [|a l]; [simpl in Hn; lia|].
  cbn [repeat]. rewrite imap_cons. cbn [nth take]. f_equal.
  rewrite <- (IH l) by (simpl in Hn; lia). apply imap_ext. reflexivity.
Qed.

Section Discovery.
Import pixelpusher.
Context {T : Type} `{LawfulReader T}.

Lemma finish_all (d : Device) (r : T) :
  rvalid r -> finish d r = Ok (set_Extra d (io.unread r)).
Proof.
  intros Hvalid. unfold finish.
  destruct (ReadAll_all r Hvalid) as (r' & ->). reflexivity.
Qed.

(** The parts of the discovery property that hold on the code, for every
    lawful reader.  A stream that holds a well-formed beacon of revision
    [sw'] and is read at a revision [sw >= sw'] (with trailing bytes only
    when the two are the same) parses; writing the parsed device at [sw']
    gives back the beacon, the trailing bytes are kept in [Extra], and
    what the stream ended before keeps its default: port 9798, zero strip
    flags, zero pusher flags. *)
Lemma ReadDevice_well_formed (r : T) (sw sw' : Z) (sa : byte)
      (base' port flags tail extra : list byte) :
  rvalid r ->
  len base' = 27 -> len port = 2 -> len flags = byte_to_Z sa -> len tail = 12 ->
  sw' <= sw -> (sw' < sw -> extra = []) ->
  io.unread r = beacon_wire sw' (sa :: base') port flags tail ++ extra ->
  exists d,
    ReadDevice r sw = Ok d /\
    Write d sw' = beacon_wire sw' (sa :: base') port flags tail /\
    Extra d = extra /\
    StripsAttached (Header d) = byte_to_Z sa /\
    (sw' < 101 -> MyPort d = 9798) /\
    (sw' < 109 -> DevStripFlags d = repeat x00 (Z.to_nat (byte_to_Z sa))) /\
    (sw' < 117 -> PusherFlags d = 0).
Proof.
  intros Hvalid Hbase Hport Hflags Htail Hle Hextra Hunread.
  destruct base' as [|b1 [|b2 [|b3 [|b4 [|b5 [|b6 [|b7 [|b8 [|b9 [|b10 [|b11 [|b12 [|b13 [|b14 [|b15 [|b16 [|b17 [|b18 [|b19 [|b20 [|b21 [|b22 [|b23 [|b24 [|b25 [|b26 [|b27 [|b28 base']]]]]]]]]]]]]]]]]]]]]]]]]]]];
    rewrite ?len_cons, ?len_nil in Hbase; try lia;
    try (pose proof (len_nonneg base'); lia).
  clear Hbase.
  destruct port as [|p0 [|p1 [|p2 port]]];
    rewrite ?len_cons, ?len_nil in Hport; try lia;
    try (pose proof (len_nonneg port); lia).
  clear Hport.
  destruct tail as [|t0 [|t1 [|t2 [|t3 [|t4 [|t5 [|t6 [|t7 [|t8 [|t9 [|t10 [|t11 [|t12 tail]]]]]]]]]]]]];
    rewrite ?len_cons, ?len_nil in Htail; try lia;
    try (pose proof (len_nonneg tail); lia).
  clear Htail.
  unfold beacon_wire in *. rewrite <- app_assoc in Hunread.
  unfold ReadDevice.
  destruct (Unpack_exact DeviceHeader_sizes r
              [[sa]; [b1]; [b2; b3]; [b4; b5; b6; b7]; [b8; b9; b10; b11];
               [b12; b13; b14; b15]; [b16; b17; b18; b19]; [b20; b21; b22; b23];
               [b24; b25]; [b26; b27]] _ Hvalid ltac:(repeat constructor) Hunread)
    as (r1 & -> & Hvalid1 & Hunread1).
  cbn [bind].
  set (dh := DeviceHeader_of_fields _).
  assert (Hsa : StripsAttached dh = byte_to_Z sa).
  { unfold dh, DeviceHeader_of_fields. cbn [StripsAttached struc.field nth le_decode]. lia. }
  assert (Hpack : pack_DeviceHeader dh
                  = [sa; b1; b2; b3; b4; b5; b6; b7; b8; b9; b10; b11; b12; b13; b14; b15;
                     b16; b17; b18; b19; b20; b21; b22; b23; b24; b25; b26; b27]).
  { unfold dh, DeviceHeader_of_fields, pack_DeviceHeader.
    cbn [StripsAttached MaxStripsPerPacket PixelsPerStrip UpdatePeriod PowerTotal
         DeltaSequence ControllerOrdinal GroupOrdinal ArtNetUniverse ArtNetChannel
         struc.field nth].
    rewrite !le_encode_signed32, !le_encode_signed16 by reflexivity.
    rewrite !le_encode_decode_len by reflexivity. reflexivity. }
  clearbody dh. rewrite Hsa.
  pose proof (byte_to_Z_range sa) as Hrange.
  clear Hunread.
  destruct (Z.ltb_spec sw 101) as [Hsw1 | Hsw1].
  { (* revision below 101: the base block only *)
    replace (sw' <? 101) with true in * by lia. cbn [app] in Hunread1.
    rewrite finish_all by assumption. rewrite Hunread1.
    eexists. split; [reflexivity|].
    unfold Write, set_Extra. cbn [Header MyPort DevStripFlags PusherFlags Extra].
    replace (sw' <? 101) with true by lia. rewrite Hpack.
    repeat split; auto. }
  destruct (Z.ltb_spec sw' 101) as [Hsw1' | Hsw1'].
  { (* the stream ends before extension 101 *)
    rewrite (Hextra ltac:(lia)) in *. cbn [app] in Hunread1.
    destruct (Unpack_at_end r1 2 [2] Hvalid1 Hunread1 ltac:(lia))
      as (r2 & Hr2 & Hvalid2 & Hunread2).
    unfold DeviceHeaderExt101_sizes. rewrite Hr2. cbn [bind].
    rewrite finish_all by assumption. rewrite Hunread2.
    eexists. split; [reflexivity|].
    unfold Write, set_Extra. cbn [Header MyPort DevStripFlags PusherFlags Extra].
    replace (sw' <? 101) with true by lia. rewrite Hpack.
    repeat split; auto. }
  rewrite <- app_assoc in Hunread1.
  destruct (Unpack_exact DeviceHeaderExt101_sizes r1 [[p0; p1]; zeros 2] _ Hvalid1
              ltac:(repeat constructor) Hunread1)
    as (r2 & -> & Hvalid2 & Hunread2).
  cbn [bind Header MyPort DevStripFlags PusherFlags Segments PowerDomain Extra struc.field nth].
  clear Hunread1 Hvalid1 r1.
  assert (Hport : le_encode 2 (le_decode [p0; p1]) = [p0; p1])
    by (apply le_encode_decode_len; reflexivity).
  destruct (Z.ltb_spec sw 109) as [Hsw2 | Hsw2].
  { replace (sw' <? 109) with true in * by lia. cbn [app] in Hunread2.
    rewrite finish_all by assumption. rewrite Hunread2.
    eexists. split; [reflexivity|].
    unfold Write, set_Extra, pack_DeviceHeaderExt101.
    cbn [Header MyPort DevStripFlags PusherFlags Extra].
    replace (sw' <? 101) with false by lia. replace (sw' <? 109) with true by lia.
    rewrite Hpack, Hport. repeat split; auto; try (intros; lia); rewrite <- ?app_assoc; reflexivity. }
  set (numStripFlags := if 8 <? byte_to_Z sa then byte_to_Z sa else 8).
  assert (Hnum : 8 <= numStripFlags /\ byte_to_Z sa <= numStripFlags)
    by (unfold numStripFlags; destruct (Z.ltb_spec 8 (byte_to_Z sa)); lia).
  destruct (Z.ltb_spec sw' 109) as [Hsw2' | Hsw2'].
  { (* the stream ends before extension 109 *)
    rewrite (Hextra ltac:(lia)) in *. cbn [app] in Hunread2.
    destruct (dataio_ReadFull_short r2 numStripFlags Hvalid2)
      as (r3 & Hr3 & Hvalid3 & Hunread3).
    { rewrite Hunread2, len_nil. lia. }
    rewrite Hr3. cbn [bind].
    rewrite finish_all by assumption. rewrite Hunread3.
    eexists. split; [reflexivity|].
    unfold Write, set_Extra, pack_DeviceHeaderExt101.
    cbn [Header MyPort DevStripFlags PusherFlags Extra].
    replace (sw' <? 101) with false by lia. replace (sw' <? 109) with true by lia.
    rewrite Hpack, Hport. repeat split; auto; try (intros; lia); rewrite <- ?app_assoc; reflexivity. }
  rewrite <- app_assoc in Hunread2.
  destruct (dataio_ReadFull_exact r2 numStripFlags (flags ++ zeros (8 - len flags)) _
              Hvalid2 Hunread2)
    as (r3 & -> & Hvalid3 & Hunread3).
  { rewrite len_app. unfold numStripFlags.
    destruct (Z.ltb_spec 8 (byte_to_Z sa)).
    - unfold zeros. replace (Z.to_nat (8 - len flags)) with 0%nat by lia.
      cbn [repeat]. rewrite len_nil. lia.
    - rewrite len_zeros by lia. lia. }
  cbn [bind Header MyPort DevStripFlags PusherFlags Segments PowerDomain Extra struc.field nth].
  assert (Hflags' : imap (fun (i : nat) (_ : byte) => nth i (flags ++ zeros (8 - len flags)) x00)
                         (repeat x00 (Z.to_nat (byte_to_Z sa))) = flags).
  { rewrite imap_nth_take by (rewrite length_app; unfold len in Hflags; lia).
    apply take_app_length'. unfold len in Hflags. lia. }
  unfold StripFlags. rewrite Hflags'.
  clear Hunread2 Hvalid2 r2.
  destruct (Z.ltb_spec sw 117) as [Hsw3 | Hsw3].
  { replace (sw' <? 117) with true in * by lia. cbn [app] in Hunread3.
    rewrite finish_all by assumption. rewrite Hunread3.
    eexists. split; [reflexivity|].
    unfold Write, set_Extra, pack_DeviceHeaderExt101.
    cbn [Header MyPort DevStripFlags PusherFlags Extra].
    replace (sw' <? 101) with false by lia. replace (sw' <? 109) with false by lia.
    replace (sw' <? 117) with true by lia.
    rewrite Hpack, Hport. repeat split; auto; try (intros; lia); rewrite <- ?app_assoc; reflexivity. }
  destruct (Z.ltb_spec sw' 117) as [Hsw3' | Hsw3'].
  { (* the stream ends before extension 117 *)
    rewrite (Hextra ltac:(lia)) in *. cbn [app] in Hunread3.
    destruct (Unpack_at_end r3 2 [4; 4; 4] Hvalid3 Hunread3 ltac:(lia))
      as (r4 & Hr4 & Hvalid4 & Hunread4).
    unfold DeviceHeaderExt117_sizes. rewrite Hr4. cbn [bind].
    rewrite finish_all by assumption. rewrite Hunread4.
    eexists. split; [reflexivity|].
    unfold Write, set_Extra, pack_DeviceHeaderExt101.
    cbn [Header MyPort DevStripFlags PusherFlags Extra].
    replace (sw' <? 101) with false by lia. replace (sw' <? 109) with false by lia.
    replace (sw' <? 117) with true by lia.
    rewrite Hpack, Hport. repeat split; auto; try (intros; lia); rewrite <- ?app_assoc; reflexivity. }
  rewrite <- app_assoc in Hunread3.
  destruct (Unpack_exact DeviceHeaderExt117_sizes r3
              [zeros 2; [t0; t1; t2; t3]; [t4; t5; t6; t7]; [t8; t9; t10; t11]] _ Hvalid3
              ltac:(repeat constructor) Hunread3)
    as (r4 & -> & Hvalid4 & Hunread4).
  cbn [bind Header MyPort DevStripFlags PusherFlags Segments PowerDomain Extra struc.field nth].
  rewrite finish_all by assumption. rewrite Hunread4.
  eexists. split; [reflexivity|].
  unfold Write, set_Extra, pack_DeviceHeaderExt101, pack_DeviceHeaderExt117.
  cbn [Header MyPort DevStripFlags PusherFlags Segments PowerDomain Extra].
  replace (sw' <? 101) with false by lia. replace (sw' <? 109) with false by lia.
  replace (sw' <? 117) with false by lia.
  rewrite Hpack, Hport. rewrite !le_encode_decode_len by reflexivity.
  repeat split; auto; try (intros; lia); rewrite <- ?app_assoc; reflexivity.
Qed.

End Discovery.

(** The round trip through the reader that [ParseDiscoveryHeaders] hands
    to [ReadDevice]: at every revision, a well-formed beacon followed by
    any trailing bytes is parsed, written back as it was, and the trailing
    bytes are kept apart. *)
Corollary ReadDevice_Write_round_trip (sw : Z) (sa : byte)
      (base' port flags tail extra : list byte) :
  len base' = 27 -> len port = 2 -> len flags = byte_to_Z sa -> len tail = 12 ->
  exists d,
    pixelpusher.ReadDevice
      (bytes.NewReader (beacon_wire sw (sa :: base') port flags tail ++ extra)) sw = Ok d /\
    pixelpusher.Write d sw = beacon_wire sw (sa :: base') port flags tail /\
    pixelpusher.Extra d = extra.
Proof.
  intros Hbase Hport Hflags Htail.
  destruct (ReadDevice_well_formed
              (bytes.NewReader (beacon_wire sw (sa :: base') port flags tail ++ extra))
              sw sw sa base' port flags tail extra)
    as (d & Hread & Hwrite & Hextra & _); try assumption; try lia.
  - unfold rvalid. cbn. unfold bytes.valid. cbn. lia.
  - cbn [io.unread bytes_Reader]. now rewrite unread_NewReader.
  - eauto.
Qed.

(** A beacon that stops where the revision-101 extension would begin, read
    as revision 122, keeps every default. *)
Example ReadDevice_clean_end_defaults :
  pixelpusher.ReadDevice (bytes.NewReader beacon_base) 122
    = Ok (pixelpusher.mkDevice beacon_header 9798 [x00] 0 0 0 []) /\
  exists d,
    pixelpusher.ReadDevice (byteslicereader.NewR (beacon_base ++ beacon_ext101)) 122 = Ok d /\
    pixelpusher.Write d 101 = beacon_base ++ beacon_ext101 /\
    pixelpusher.DevStripFlags d = [x00] /\ pixelpusher.PusherFlags d = 0.
Proof.
  split; [vm_compute; reflexivity|].
  destruct (ReadDevice_well_formed
              (byteslicereader.NewR (beacon_base ++ beacon_ext101)) 122 101 x01
              (tl beacon_base) [xce; xfa] [x00]
              [x00; x00; x00; x00; x00; x00; x00; x00; x00; x00; x00; x00] [])
    as (d & Hread & Hwrite & _ & _ & _ & Hflags & Hpusher);
    try reflexivity; try lia.
  - unfold rvalid. cbn. unfold byteslicereader.valid. cbn. lia.
  - exists d. split; [exact Hread|]. split; [exact Hwrite|].
    split; [apply Hflags | apply Hpusher]; lia.
Qed.

(** C1, evaluated on the code.  At software revision 109 a stream that ends
    after three of the eight strip-flag bytes ends in the middle of an
    extension; [dataio.ReadFull] reports the short read as [io.EOF], which
    [ReadDevice] takes for "extension absent": the parse succeeds with the
    default strip flags, the three bytes are dropped, and writing the
    parsed device does not give back the bytes read.  The same stream cut
    inside the first field of an extension fails as the claim says. *)
Theorem ReadDevice_accepts_stream_cut_inside_extension :
  let cut := beacon_base ++ beacon_ext101 ++ [x0f; x00; x00] in
  let parsed := pixelpusher.mkDevice beacon_header 64206 [x00] 0 0 0 [] in
  pixelpusher.ReadDevice (bytes.NewReader cut) 109 = Ok parsed /\
  pixelpusher.ReadDevice (byteslicereader.NewR cut) 109 = Ok parsed /\
  pixelpusher.Write parsed 109
    = beacon_base ++ beacon_ext101 ++ [x00; x00; x00; x00; x00; x00; x00; x00] /\
  take (length cut) (pixelpusher.Write parsed 109) <> cut /\
  pixelpusher.ReadDevice (bytes.NewReader (beacon_base ++ [xce])) 109
    = Err (Wrapped "reading D101 extension header" ErrUnexpectedEOF).
Proof.
  cbv zeta. repeat split; try (vm_compute; reflexivity). vm_compute. discriminate.
Qed.
